(** * use-hotkeys: the pattern language of [hotkeys-patterns.ts]

    A shallow embedding of the parser ([parseSingle], [parsePattern]), the
    single-shot matcher ([matchHotkey], [matchAnyHotkey]), the sequence
    recognizer built by [createHotkeyHandler] and the formatter
    ([formatPattern]), and of the listeners that the hook [useHotkeys]
    attaches, followed by the properties of them that the specification
    states and by further properties read off the code.

    Modelling conventions.
    - A JavaScript string is a [string]; the development covers the ASCII
      fragment: [toLowerCase]/[toUpperCase] act on the letters A-Z/a-z,
      [trim] strips the ASCII white space (TAB, LF, VT, FF, CR, SPACE), and
      every other code unit is an opaque, caseless, non-blank character.
    - [specialKeyMap] and [modifierAliases] are object literals, so a
      property read also sees [Object.prototype]: the two all-lowercase
      inherited names, [constructor] and [__proto__], yield a function and
      an object instead of [undefined].  The key of a step is therefore a
      [JsKey], and code that calls a string method on such a key throws a
      [TypeError]; fallible functions return a [result].
    - [navigator] is the ambient browser object read by [detectPlatform];
      it is a section variable.
    - The browser's timer table ([window.setTimeout]/[clearTimeout]) is a
      finite map from timer handles to due times on a logical clock, in
      milliseconds; an event stream is a list of events, each with the
      time elapsed since the previous one.  The handler passed to
      [createHotkeyHandler] is a callback that logs the event it is
      called with. *)

From Stdlib Require Import String Ascii ZArith List Bool Lia.
From stdpp Require Import gmap strings list fin_maps.
Import ListNotations.

Local Open Scope string_scope.

(** ** JavaScript strings (ASCII fragment) *)

Definition isUpperAscii (c : ascii) : bool :=
  let n := nat_of_ascii c in Nat.leb 65 n && Nat.leb n 90.

Definition isLowerAscii (c : ascii) : bool :=
  let n := nat_of_ascii c in Nat.leb 97 n && Nat.leb n 122.

Definition lowerChar (c : ascii) : ascii :=
  if isUpperAscii c then ascii_of_nat (nat_of_ascii c + 32) else c.

Definition upperChar (c : ascii) : ascii :=
  if isLowerAscii c then ascii_of_nat (nat_of_ascii c - 32) else c.

Fixpoint mapChars (f : ascii -> ascii) (s : string) : string :=
  match s with
  | EmptyString => EmptyString
  | String c r => String (f c) (mapChars f r)
  end.

(** [s.toLowerCase()] and [s.toUpperCase()]. *)
Definition toLowerCase (s : string) : string := mapChars lowerChar s.
Definition toUpperCase (s : string) : string := mapChars upperChar s.

(** White space removed by [String.prototype.trim]. *)
Definition isWhiteSpace (c : ascii) : bool :=
  let n := nat_of_ascii c in (Nat.leb 9 n && Nat.leb n 13) || Nat.eqb n 32.

Fixpoint trimStart (s : string) : string :=
  match s with
  | EmptyString => EmptyString
  | String c r => if isWhiteSpace c then trimStart r else s
  end.

Fixpoint trimEnd (s : string) : string :=
  match s with
  | EmptyString => EmptyString
  | String c r =>
      match trimEnd r with
      | EmptyString => if isWhiteSpace c then EmptyString else String c EmptyString
      | r' => String c r'
      end
  end.

(** [s.trim()]. *)
Definition trim (s : string) : string := trimEnd (trimStart s).

(** [s.split(sep)] for a one-character separator: never empty, and
    a single empty piece on the empty string. *)
Fixpoint split (sep : ascii) (s : string) : list string :=
  match s with
  | EmptyString => [EmptyString]
  | String c r =>
      if Ascii.eqb c sep then EmptyString :: split sep r
      else match split sep r with
           | [] => [String c EmptyString]
           | hd :: tl => String c hd :: tl
           end
  end.

(** The truthiness of a string, as used by [.filter(Boolean)]. *)
Definition truthy (s : string) : bool :=
  match s with EmptyString => false | _ => true end.

(** [s.includes(sub)]. *)
Fixpoint includes (sub s : string) : bool :=
  String.prefix sub s ||
  match s with
  | EmptyString => false
  | String _ r => includes sub r
  end.

(** [s.charAt(0)] and [s.slice(1)]. *)
Definition charAt0 (s : string) : string :=
  match s with EmptyString => EmptyString | String c _ => String c EmptyString end.

Definition slice1 (s : string) : string :=
  match s with EmptyString => EmptyString | String _ r => r end.

(** [xs.join(sep)]. *)
Fixpoint join (sep : string) (xs : list string) : string :=
  match xs with
  | [] => EmptyString
  | [x] => x
  | x :: rest => x ++ sep ++ join sep rest
  end.

(** ** Exceptions *)

Inductive JsError := TypeError.

Inductive result (A : Type) : Type :=
| Ok (a : A)
| Throw (err : JsError).

Arguments Ok {A} a.
Arguments Throw {A} err.

Global Instance result_ret : MRet result := fun A a => Ok a.

Global Instance result_bind : MBind result := fun A B k r =>
  match r with
  | Ok a => k a
  | Throw err => Throw err
  end.

(** ** Data model *)

Inductive Platform := mac | windows | linux | unknown.

(** The value found under [key] at run time: a string, or one of the two
    inherited properties of [specialKeyMap]. *)
Inductive JsKey :=
| KStr (s : string)
| KObjectFunction     (* specialKeyMap["constructor"]: the function Object *)
| KObjectPrototype.   (* specialKeyMap["__proto__"]: Object.prototype *)

(** One parsed shortcut unit, the value returned by [parseSingle]. *)
Record Step := mkStep {
  step_key : option JsKey;
  step_ctrl : bool;
  step_meta : bool;
  step_shift : bool;
  step_alt : bool
}.

Record ParsedPattern := mkParsed {
  key : option JsKey;
  ctrl : bool;
  meta : bool;
  shift : bool;
  alt : bool;
  isSequence : bool;
  sequence : list Step
}.

Record MatchOptions := mkMatchOptions {
  platform : option Platform;
  caseSensitive : option bool;
  treatModAsPlatformMeta : option bool
}.

Record FormatOptions := mkFormatOptions {
  fmt_platform : option Platform;
  useSymbols : option bool;
  separator : option string
}.

(** The fields of a [KeyboardEvent] that the code reads. *)
Record KeyboardEvent := mkEvent {
  ev_key : string;
  ctrlKey : bool;
  metaKey : bool;
  shiftKey : bool;
  altKey : bool
}.

Inductive HotkeyPattern :=
| PString (s : string)
| PList (l : list string)
| PConfig (patterns : string + list string) (sequenceTimeoutMs : option Z).

Global Instance Platform_eq_dec : EqDecision Platform.
Proof. solve_decision. Defined.

Global Instance JsKey_eq_dec : EqDecision JsKey.
Proof. solve_decision. Defined.

Global Instance Step_eq_dec : EqDecision Step.
Proof. solve_decision. Defined.

(** ** Lookup tables *)

Definition specialKeyMap : gmap string string :=
  list_to_map
    [ ("esc", "Escape"); ("escape", "Escape"); ("enter", "Enter");
      ("return", "Enter"); ("tab", "Tab"); ("space", " "); ("spacebar", " ");
      ("backspace", "Backspace"); ("delete", "Delete"); ("del", "Delete");
      ("arrowup", "ArrowUp"); ("up", "ArrowUp"); ("arrowdown", "ArrowDown");
      ("down", "ArrowDown"); ("arrowleft", "ArrowLeft"); ("left", "ArrowLeft");
      ("arrowright", "ArrowRight"); ("right", "ArrowRight");
      ("pageup", "PageUp"); ("pagedown", "PageDown"); ("home", "Home");
      ("end", "End") ].

(** [specialKeyMap[name]]: own properties first, then the prototype chain;
    [None] is [undefined]. *)
Definition specialKeyMap_get (name : string) : option JsKey :=
  match specialKeyMap !! name with
  | Some v => Some (KStr v)
  | None =>
      if String.eqb name "constructor" then Some KObjectFunction
      else if String.eqb name "__proto__" then Some KObjectPrototype
      else None
  end.

Inductive ModifierAlias := AliasCtrl | AliasMeta | AliasShift | AliasAlt | AliasMod.

Definition modifierAliases : gmap string ModifierAlias :=
  list_to_map
    [ ("control", AliasCtrl); ("ctrl", AliasCtrl); ("command", AliasMeta);
      ("cmd", AliasMeta); ("meta", AliasMeta); ("shift", AliasShift);
      ("option", AliasAlt); ("alt", AliasAlt); ("mod", AliasMod) ].

(** [modifierAliases[name]] as the parser uses it: the result is only
    compared with the five alias strings, which an inherited property
    never equals, so those read as [None] like [undefined]. *)
Definition modifierAliases_get (name : string) : option ModifierAlias :=
  modifierAliases !! name.

Section Hotkeys.

(** [navigator.platform] when [navigator] is defined. *)
Variable navigator : option string.

(** Whether a timer that comes due at the very instant an event arrives
    runs before that event's listener.  Browsers do not fix this order, so
    it is a parameter; no property below depends on its value. *)
Variable deadlineFirst : bool.

Definition detectPlatform : Platform :=
  match navigator with
  | None => unknown
  | Some navigator_platform =>
      let p := toLowerCase navigator_platform in
      if includes "mac" p then mac
      else if includes "win" p then windows
      else if includes "linux" p then linux
      else unknown
  end.

(** ** Parser *)

Definition normalizeKeyName (raw : string) (caseSensitive : bool) : JsKey :=
  let k := trim raw in
  let lower := toLowerCase k in
  match specialKeyMap_get lower with
  | Some v => v
  | None =>
      if Nat.eqb (String.length lower) 1 then KStr (if caseSensitive then k else lower)
      else KStr (if caseSensitive then k
                 else if Nat.eqb (String.length k) 1 then lower
                 else toUpperCase (charAt0 k) ++ slice1 k)
  end.

(** [options?.platform ?? detectPlatform()] and the two boolean defaults. *)
Definition optPlatform (options : option MatchOptions) : Platform :=
  match options ≫= platform with Some p => p | None => detectPlatform end.

Definition optCaseSensitive (options : option MatchOptions) : bool :=
  match options ≫= caseSensitive with Some b => b | None => false end.

Definition optTreatMod (options : option MatchOptions) : bool :=
  match options ≫= treatModAsPlatformMeta with Some b => b | None => true end.

Definition emptyStep : Step := mkStep None false false false false.

(** The body of the [for (const token of tokens)] loop of [parseSingle]. *)
Definition parseToken (platform : Platform) (caseSensitive treatMod : bool)
    (acc : Step) (token : string) : Step :=
  let lower := toLowerCase token in
  let alias := modifierAliases_get lower in
  let '(mkStep k c m s a) := acc in
  match alias with
  | Some AliasMod =>
      if treatMod then
        (if decide (platform = mac) then mkStep k c true s a else mkStep k true m s a)
      else mkStep (Some (normalizeKeyName token caseSensitive)) c m s a
  | Some AliasCtrl => mkStep k true m s a
  | Some AliasMeta => mkStep k c true s a
  | Some AliasShift => mkStep k c m true a
  | Some AliasAlt => mkStep k c m s true
  | None => mkStep (Some (normalizeKeyName token caseSensitive)) c m s a
  end.

(** [str.split(sep).map(t => t.trim()).filter(Boolean)]. *)
Definition tokenize (sep : ascii) (str : string) : list string :=
  List.filter truthy (List.map trim (split sep str)).

Definition parseSingle (pattern : string) (options : option MatchOptions) : Step :=
  let platform := optPlatform options in
  let caseSensitive := optCaseSensitive options in
  let treatMod := optTreatMod options in
  let tokens := tokenize "+" pattern in
  fold_left (parseToken platform caseSensitive treatMod) tokens emptyStep.

Definition parsePattern (pattern : string) (options : option MatchOptions)
    : ParsedPattern :=
  let sequenceParts := tokenize " " pattern in
  if Nat.leb (List.length sequenceParts) 1 then
    let single := parseSingle pattern options in
    mkParsed (step_key single) (step_ctrl single) (step_meta single)
             (step_shift single) (step_alt single) false [single]
  else
    let sequence := List.map (fun p => parseSingle p options) sequenceParts in
    mkParsed None false false false false true sequence.

(** ** Matcher *)

Definition eventKeyComparable (event : KeyboardEvent) (caseSensitive : bool) : string :=
  let k := ev_key event in
  if Nat.eqb (String.length k) 1 then (if caseSensitive then k else toLowerCase k)
  else k.

(** [comparable === (k.length === 1 ? caseSensitive ? k : k.toLowerCase() : k)]
    for a non-null key [k].  The function [Object] has [length] 1 and no
    [toLowerCase]; [Object.prototype] has no [length]. *)
Definition keyEquals (comparable : string) (k : JsKey) (caseSensitive : bool)
    : result bool :=
  match k with
  | KStr s =>
      Ok (String.eqb comparable
            (if Nat.eqb (String.length s) 1
             then (if caseSensitive then s else toLowerCase s)
             else s))
  | KObjectFunction => if caseSensitive then Ok false else Throw TypeError
  | KObjectPrototype => Ok false
  end.

(** Lines 204-217 of [matchHotkey], over the five fields they read. *)
Definition matchStep (event : KeyboardEvent) (step : Step) (caseSensitive : bool)
    : result bool :=
  if negb (Bool.eqb (step_ctrl step) (ctrlKey event)) then Ok false
  else if negb (Bool.eqb (step_meta step) (metaKey event)) then Ok false
  else if negb (Bool.eqb (step_shift step) (shiftKey event)) then Ok false
  else if negb (Bool.eqb (step_alt step) (altKey event)) then Ok false
  else match step_key step with
       | None => Ok true
       | Some k => keyEquals (eventKeyComparable event caseSensitive) k caseSensitive
       end.

Definition matchHotkey (event : KeyboardEvent) (pattern : string)
    (options : option MatchOptions) : result bool :=
  let parsed := parsePattern pattern options in
  if isSequence parsed then Ok false
  else
    let caseSensitive := optCaseSensitive options in
    matchStep event
      (mkStep (key parsed) (ctrl parsed) (meta parsed) (shift parsed) (alt parsed))
      caseSensitive.

(** [Array.isArray(patterns) ? patterns : [patterns]]. *)
Definition asList (patterns : string + list string) : list string :=
  match patterns with inl p => [p] | inr l => l end.

Fixpoint matchAnyList (event : KeyboardEvent) (items : list string)
    (options : option MatchOptions) : result bool :=
  match items with
  | [] => Ok false
  | p :: rest =>
      b ← matchHotkey event p options;
      if (b : bool) then Ok true else matchAnyList event rest options
  end.

Definition matchAnyHotkey (event : KeyboardEvent) (patterns : string + list string)
    (options : option MatchOptions) : result bool :=
  matchAnyList event (asList patterns) options.

(** ** The world a handler runs in *)

(** [timers] is the registration's part of the window's timer table, a
    handle mapped to the time its callback is due; [index] and [timer] are
    the closure variables of the sequence handler; [calls] logs the events
    [handler] was invoked with, oldest first. *)
Record World := mkWorld {
  now : Z;
  timers : gmap positive Z;
  nextHandle : positive;
  index : nat;
  timer : option positive;
  calls : list KeyboardEvent
}.

Definition setIndex (i : nat) (w : World) : World :=
  mkWorld (now w) (timers w) (nextHandle w) i (timer w) (calls w).

Definition setTimer (t : option positive) (w : World) : World :=
  mkWorld (now w) (timers w) (nextHandle w) (index w) t (calls w).

(** [handler(event)]. *)
Definition callHandler (event : KeyboardEvent) (w : World) : World :=
  mkWorld (now w) (timers w) (nextHandle w) (index w) (timer w) (calls w ++ [event])%list.

(** The delay of [window.setTimeout] is a WebIDL [long]: the number wraps
    around to 32 bits, and a negative delay counts as 0. *)
Definition toInt32 (n : Z) : Z :=
  ((n + 2147483648) mod 4294967296 - 2147483648)%Z.

Definition timerDelay (ms : Z) : Z := Z.max 0 (toInt32 ms).

(** [window.setTimeout(callback, ms)]: a fresh positive handle, due after
    the delay. *)
Definition setTimeout (ms : Z) (w : World) : positive * World :=
  (nextHandle w,
   mkWorld (now w) (<[nextHandle w := (now w + timerDelay ms)%Z]> (timers w))
           (Pos.succ (nextHandle w)) (index w) (timer w) (calls w)).

(** [window.clearTimeout(h)]. *)
Definition clearTimeout (h : positive) (w : World) : World :=
  mkWorld (now w) (delete h (timers w)) (nextHandle w) (index w) (timer w) (calls w).

(** [if (timer) { window.clearTimeout(timer); timer = null; }]; a handle is
    positive, hence truthy. *)
Definition cancelTimer (w : World) : World :=
  match timer w with
  | Some h => setTimer None (clearTimeout h w)
  | None => w
  end.

(** The callback given to [setTimeout]: [index = 0; timer = null]. *)
Definition timerCallback (w : World) : World := setTimer None (setIndex 0 w).

(** The browser runs the callback of timer [h] and forgets the timer. *)
Definition fireTimer (h : positive) (w : World) : World :=
  timerCallback (clearTimeout h w).

(** A timer is due once its delay has elapsed. *)
Definition isDue (now due : Z) : bool :=
  if deadlineFirst then (due <=? now)%Z else (due <? now)%Z.

Definition dueHandles (w : World) : list positive :=
  (map_to_list
     (filter (fun ht : positive * Z => isDue (now w) ht.2 = true) (timers w))).*1.

(** Every timer that is due runs. *)
Definition runDueTimers (w : World) : World := foldr fireTimer w (dueHandles w).

(** [ms] milliseconds pass. *)
Definition advance (ms : Z) (w : World) : World :=
  mkWorld (now w + Z.max 0 ms)%Z (timers w) (nextHandle w) (index w) (timer w) (calls w).

(** ** Handlers *)

(** The two closures [createHotkeyHandler] can return, with the variables
    they capture. *)
Inductive Handler :=
| SequenceHandler (seq : list Step) (sequenceTimeoutMs : Z)
                  (options : option MatchOptions)
| SimpleHandler (normalized : list string) (options : MatchOptions).

(** [modMatch] and [keyMatch] of the sequence closure; both are computed
    before either is tested. *)
Definition stepMatches (event : KeyboardEvent) (current : Step)
    (options : option MatchOptions) : result bool :=
  let modMatch :=
    Bool.eqb (step_ctrl current) (ctrlKey event) &&
    Bool.eqb (step_meta current) (metaKey event) &&
    Bool.eqb (step_shift current) (shiftKey event) &&
    Bool.eqb (step_alt current) (altKey event) in
  keyMatch ← match step_key current with
             | None => Ok true
             | Some k =>
                 keyEquals (eventKeyComparable event (optCaseSensitive options))
                           k (optCaseSensitive options)
             end;
  Ok (modMatch && keyMatch).

(** The closure returned for a sequence (lines 259-303).  Reading a field
    of [seq[index]] throws when [index] is out of range. *)
Definition sequenceHandler (seq : list Step) (sequenceTimeoutMs : Z)
    (options : option MatchOptions) (event : KeyboardEvent) (w : World)
    : result World :=
  match seq !! index w with
  | None => Throw TypeError
  | Some current =>
      matched ← stepMatches event current options;
      if (matched : bool) then
        let w1 := setIndex (index w + 1) w in
        if Nat.eqb (index w1) (length seq) then
          Ok (callHandler event (cancelTimer (setIndex 0 w1)))
        else
          let w2 := match timer w1 with
                    | Some h => clearTimeout h w1
                    | None => w1
                    end in
          let '(h, w3) := setTimeout sequenceTimeoutMs w2 in
          Ok (setTimer (Some h) w3)
      else
        Ok (cancelTimer (setIndex 0 w))
  end.

(** The closure returned when no pattern is a sequence (lines 306-309). *)
Definition simpleHandler (normalized : list string) (options : MatchOptions)
    (event : KeyboardEvent) (w : World) : result World :=
  b ← matchAnyHotkey event (inr normalized) (Some options);
  Ok (if (b : bool) then callHandler event w else w).

Definition invoke (h : Handler) (event : KeyboardEvent) (w : World) : result World :=
  match h with
  | SequenceHandler seq ms options => sequenceHandler seq ms options event w
  | SimpleHandler normalized options => simpleHandler normalized options event w
  end.

(** [sequenceTimeoutMs] (lines 240-243): 0 for a plain string or list,
    otherwise [patterns.sequenceTimeoutMs ?? 600]. *)
Definition timeoutOf (patterns : HotkeyPattern) : Z :=
  match patterns with
  | PString _ | PList _ => 0%Z
  | PConfig _ ms => default 600%Z ms
  end.

(** [normalized] (lines 244-248). *)
Definition normalizedOf (patterns : HotkeyPattern) : list string :=
  match patterns with
  | PString s => [s]
  | PList l => l
  | PConfig ps _ => asList ps
  end.

(** The predicate given to [some] and [find]. *)
Definition parsesAsSequence (options : option MatchOptions) (p : string) : bool :=
  isSequence (parsePattern p options).

(** [createHotkeyHandler(patterns, handler, options)]; [handler] is the
    logging callback of [callHandler].  Were [find] to return [undefined],
    [parsePattern] would throw on [undefined.split]. *)
Definition createHotkeyHandler (patterns : HotkeyPattern)
    (options : option MatchOptions) : result Handler :=
  let platform := optPlatform options in
  let sequenceTimeoutMs := timeoutOf patterns in
  let normalized := normalizedOf patterns in
  if existsb (parsesAsSequence options) normalized then
    match find (parsesAsSequence options) normalized with
    | Some firstSeq =>
        Ok (SequenceHandler (sequence (parsePattern firstSeq options))
                            sequenceTimeoutMs options)
    | None => Throw TypeError
    end
  else
    Ok (SimpleHandler normalized
          (mkMatchOptions (Some platform) (options ≫= caseSensitive)
                          (options ≫= treatModAsPlatformMeta))).

(** ** Event streams on the logical clock *)

(** A fresh registration: no progress, no timer, nothing logged. *)
Definition initialWorld : World := mkWorld 0 ∅ 1 0 None [].

(** One event arrives [gap] milliseconds after the previous one: the clock
    advances, the timers that came due run, then the listener runs.  An
    exception thrown by the listener is reported by the browser and leaves
    the world as it was. *)
Definition deliver (h : Handler) (w : World) (timed : Z * KeyboardEvent) : World :=
  let w1 := runDueTimers (advance timed.1 w) in
  match invoke h timed.2 w1 with
  | Ok w2 => w2
  | Throw _ => w1
  end.

Definition run (h : Handler) (stream : list (Z * KeyboardEvent)) (w : World) : World :=
  fold_left (deliver h) stream w.

(** The listener alone, on events handled one after the other with no
    timer running in between. *)
Definition dispatch (h : Handler) (events : list KeyboardEvent) (w : World) : World :=
  fold_left (fun w event => match invoke h event w with
                            | Ok w' => w'
                            | Throw _ => w
                            end) events w.

(** ** Formatter *)

Definition keyTruthy (k : option JsKey) : bool :=
  match k with
  | None => false
  | Some (KStr s) => truthy s
  | Some _ => true
  end.

(** [toKeyLabel(k)] as it ends up in the joined string: [Object.prototype]
    is returned as is and printed by [join] as [[object Object]]; the
    function [Object] has [length] 1 and no [toUpperCase]. *)
Definition toKeyLabel (useSymbols : bool) (k : option JsKey) : result string :=
  match k with
  | None => Ok EmptyString
  | Some (KStr s) =>
      if negb (truthy s) then Ok EmptyString
      else if String.eqb s " " then Ok (if useSymbols then "␣" else "Space")
      else Ok (if Nat.eqb (String.length s) 1 then toUpperCase s else s)
  | Some KObjectFunction => Throw TypeError
  | Some KObjectPrototype => Ok "[object Object]"
  end.

Definition ctrlLabel (useSymbols : bool) : string :=
  if useSymbols then "⌃" else "Ctrl".

Definition metaLabel (useSymbols : bool) (platform : Platform) : string :=
  if useSymbols then "⌘" else if decide (platform = mac) then "Command" else "Meta".

Definition shiftLabel (useSymbols : bool) : string :=
  if useSymbols then "⇧" else "Shift".

Definition altLabel (useSymbols : bool) (platform : Platform) : string :=
  if useSymbols then "⌥" else if decide (platform = mac) then "Option" else "Alt".

(** The five conditional [push] calls, written twice in the source (for
    the top-level fields and for each step of a sequence). *)
Definition stepTokens (useSymbols : bool) (platform : Platform) (p : Step)
    : result (list string) :=
  let t := ((if step_ctrl p then [ctrlLabel useSymbols] else [])
          ++ (if step_meta p then [metaLabel useSymbols platform] else [])
          ++ (if step_shift p then [shiftLabel useSymbols] else [])
          ++ (if step_alt p then [altLabel useSymbols platform] else []))%list in
  if keyTruthy (step_key p) then
    label ← toKeyLabel useSymbols (step_key p);
    Ok (t ++ [label])%list
  else Ok t.

Fixpoint mapResult {A B : Type} (f : A -> result B) (xs : list A) : result (list B) :=
  match xs with
  | [] => Ok []
  | x :: rest =>
      y ← f x;
      ys ← mapResult f rest;
      Ok (y :: ys)
  end.

Definition fmtPlatform (options : option FormatOptions) : Platform :=
  match options ≫= fmt_platform with Some p => p | None => detectPlatform end.

Definition fmtUseSymbols (options : option FormatOptions) : bool :=
  match options ≫= useSymbols with
  | Some b => b
  | None => bool_decide (fmtPlatform options = mac)
  end.

Definition fmtSeparator (options : option FormatOptions) : string :=
  match options ≫= separator with
  | Some s => s
  | None => if fmtUseSymbols options then EmptyString else " + "
  end.

Definition formatPattern (pattern : string) (options : option FormatOptions)
    : result string :=
  let platform := fmtPlatform options in
  let useSymbols := fmtUseSymbols options in
  let separator := fmtSeparator options in
  let parsed := parsePattern pattern (Some (mkMatchOptions (Some platform) None None)) in
  if negb (isSequence parsed) then
    tokens ← stepTokens useSymbols platform
               (mkStep (key parsed) (ctrl parsed) (meta parsed) (shift parsed)
                       (alt parsed));
    Ok (join separator tokens)
  else
    parts ← mapResult
              (fun p => t ← stepTokens useSymbols platform p; Ok (join separator t))
              (sequence parsed);
    Ok (join (if useSymbols then " " else " then ") parts).

End Hotkeys.

(** ** The hook [useHotkeys]

    The listeners that [useHotkeys] attaches, for one mount with constant
    arguments.  A state update [setIndicator(f)] applies [f] to the
    current state, in the order of the calls.  [pressCount] is a double:
    adding 1 is exact up to 2^53 and leaves 2^53 unchanged.  The
    [eventOptions] are taken not to detach a listener ([once], [signal]). *)

Inductive EventType := keydown | keyup | keypress.

Global Instance EventType_eq_dec : EqDecision EventType.
Proof. solve_decision. Defined.

(** The options the listeners read; an absent field takes the default of
    the destructuring. *)
Record HotkeysOptions := mkHotkeysOptions {
  eventType : option EventType;
  enabled : option bool;
  requireCtrl : option bool;
  requireMeta : option bool;
  requireShift : option bool;
  requireAlt : option bool;
  returnState : option bool
}.

Record HotkeyIndicatorState := mkIndicator {
  isActive : bool;
  lastKey : option string;
  lastEventType : option EventType;
  pressCount : N;
  lastTriggeredAt : option Z;
  isCombinationActive : bool
}.

(** One event reaching the target: its [type], the fields of the
    [KeyboardEvent], and what [Date.now()] reads when its state update
    runs. *)
Record Dispatch := mkDispatch {
  dispatchType : EventType;
  dispatchEvent : KeyboardEvent;
  dateNow : Z
}.

(** The state of a mounted hook: the indicator, and the events the
    callback was called with, oldest first. *)
Record HookState := mkHookState {
  indicator : HotkeyIndicatorState;
  callbackCalls : list KeyboardEvent
}.

Inductive Listener := handlePrimary | handleKeyUpForDeactivation.

Definition optEventType (o : HotkeysOptions) : EventType := default keydown (eventType o).
Definition optEnabled (o : HotkeysOptions) : bool := default true (enabled o).
Definition optRequireCtrl (o : HotkeysOptions) : bool := default false (requireCtrl o).
Definition optRequireMeta (o : HotkeysOptions) : bool := default false (requireMeta o).
Definition optRequireShift (o : HotkeysOptions) : bool := default false (requireShift o).
Definition optRequireAlt (o : HotkeysOptions) : bool := default false (requireAlt o).
Definition optReturnState (o : HotkeysOptions) : bool := default false (returnState o).

(** [new Set(list.map(String))]. *)
Definition normalizedKeys (keys : string + list string) : gset string :=
  list_to_set (asList keys).

(** [previous + 1] on doubles. *)
Definition jsIncrement (n : N) : N :=
  if (n <? 9007199254740992)%N then (n + 1)%N else n.

Definition initialIndicator : HotkeyIndicatorState :=
  mkIndicator false None None 0 None false.

Definition matchEvent (keys : string + list string) (o : HotkeysOptions)
    (event : KeyboardEvent) : bool :=
  if negb (bool_decide (ev_key event ∈ normalizedKeys keys)) then false
  else if optRequireCtrl o && negb (ctrlKey event) then false
  else if optRequireMeta o && negb (metaKey event) then false
  else if optRequireShift o && negb (shiftKey event) then false
  else if optRequireAlt o && negb (altKey event) then false
  else true.

(** The updater of [updateIndicatorOnTrigger]. *)
Definition updateIndicatorOnTrigger (o : HotkeysOptions) (d : Dispatch)
    (prev : HotkeyIndicatorState) : HotkeyIndicatorState :=
  let event := dispatchEvent d in
  mkIndicator
    (if decide (dispatchType d = keydown) then true else isActive prev)
    (Some (ev_key event))
    (Some (dispatchType d))
    (jsIncrement (pressCount prev))
    (Some (dateNow d))
    ((ctrlKey event || metaKey event || shiftKey event || altKey event) &&
     (negb (optRequireCtrl o) || ctrlKey event) &&
     (negb (optRequireMeta o) || metaKey event) &&
     (negb (optRequireShift o) || shiftKey event) &&
     (negb (optRequireAlt o) || altKey event)).

Definition runHandlePrimary (keys : string + list string) (o : HotkeysOptions)
    (d : Dispatch) (st : HookState) : HookState :=
  if negb (matchEvent keys o (dispatchEvent d)) then st
  else
    let st1 := if optReturnState o
               then mkHookState (updateIndicatorOnTrigger o d (indicator st))
                                (callbackCalls st)
               else st in
    mkHookState (indicator st1) (callbackCalls st1 ++ [dispatchEvent d])%list.

Definition runHandleKeyUpForDeactivation (keys : string + list string)
    (d : Dispatch) (st : HookState) : HookState :=
  let event := dispatchEvent d in
  if negb (bool_decide (ev_key event ∈ normalizedKeys keys)) then st
  else
    let prev := indicator st in
    mkHookState
      (mkIndicator false (Some (ev_key event)) (Some keyup) (pressCount prev)
                   (lastTriggeredAt prev) false)
      (callbackCalls st).

(** The listeners the effect attaches, with the event type of each, in
    the order of the [addEventListener] calls.  [capable] says that the
    resolved target exists and has [addEventListener]. *)
Definition attachedListeners (o : HotkeysOptions) (capable : bool)
    : list (EventType * Listener) :=
  if negb (optEnabled o) then []
  else if negb capable then []
  else (optEventType o, handlePrimary)
       :: (if optReturnState o && bool_decide (optEventType o = keydown)
           then [(keyup, handleKeyUpForDeactivation)]
           else []).

Definition runListener (keys : string + list string) (o : HotkeysOptions)
    (l : Listener) (d : Dispatch) (st : HookState) : HookState :=
  match l with
  | handlePrimary => runHandlePrimary keys o d st
  | handleKeyUpForDeactivation => runHandleKeyUpForDeactivation keys d st
  end.

(** The target dispatches [d]: the listeners attached for its type run in
    order. *)
Definition dispatchTo (keys : string + list string) (o : HotkeysOptions)
    (capable : bool) (st : HookState) (d : Dispatch) : HookState :=
  fold_left (fun st tl => if decide (tl.1 = dispatchType d)
                          then runListener keys o tl.2 d st else st)
            (attachedListeners o capable) st.

Definition initialHookState : HookState := mkHookState initialIndicator [].

Definition hookRun (keys : string + list string) (o : HotkeysOptions)
    (capable : bool) (stream : list Dispatch) : HookState :=
  fold_left (dispatchTo keys o capable) stream initialHookState.

(** ** Vocabulary of the statements *)

(** A key press with no modifier held. *)
Definition keyEvent (k : string) : KeyboardEvent := mkEvent k false false false false.

(** The steps of the patterns ["g g"] and ["g h"]. *)
Definition stepG : Step := mkStep (Some (KStr "g")) false false false false.
Definition stepH : Step := mkStep (Some (KStr "h")) false false false false.

(** Options that only switch [treatModAsPlatformMeta] off. *)
Definition modOffOptions : option MatchOptions :=
  Some (mkMatchOptions None None (Some false)).

(** Every character of [s] satisfies [P]. *)
Fixpoint forallChars (P : ascii -> bool) (s : string) : bool :=
  match s with
  | EmptyString => true
  | String c r => P c && forallChars P r
  end.

(** A pattern made of separators only: ["+"] and white space. *)
Definition isSeparator (c : ascii) : bool := Ascii.eqb c "+" || isWhiteSpace c.

Definition onlySeparators (pattern : string) : bool := forallChars isSeparator pattern.

(** The four modifier flags of the event equal those of the step. *)
Definition modifiersEqual (event : KeyboardEvent) (step : Step) : bool :=
  Bool.eqb (step_ctrl step) (ctrlKey event) &&
  Bool.eqb (step_meta step) (metaKey event) &&
  Bool.eqb (step_shift step) (shiftKey event) &&
  Bool.eqb (step_alt step) (altKey event).

(** The registration owns at most one timer, the one [timer] names. *)
Definition timerInv (w : World) : Prop :=
  match timer w with
  | None => timers w = ∅
  | Some h => (exists due, timers w = {[h := due]}) /\ (h < nextHandle w)%positive
  end.

(** Progress stays inside the sequence, and a deadline is pending exactly
    while there is progress. *)
Definition progressInv (seq : list Step) (w : World) : Prop :=
  index w < length seq /\ (index w = 0 <-> timer w = None).

Definition wellFormed (seq : list Step) (w : World) : Prop :=
  progressInv seq w /\ timerInv w.

(** The worlds a registration can be in: time passes, due timers run
    (under either tie-break), and the listener handles events; a listener
    that throws leaves the world as it was. *)
Inductive reachable (nav : option string) (h : Handler) : World -> Prop :=
| reach_initial : reachable nav h initialWorld
| reach_advance w gap : reachable nav h w -> reachable nav h (advance gap w)
| reach_timers w tie : reachable nav h w -> reachable nav h (runDueTimers tie w)
| reach_listener w event w' :
    reachable nav h w -> invoke nav h event w = Ok w' -> reachable nav h w'.

(** Nothing has been reported, and whatever timer is pending is already
    due. *)
Definition quiescent (seq : list Step) (w : World) : Prop :=
  calls w = [] /\ wellFormed seq w /\
  forall h due, timers w !! h = Some due -> (due <= now w)%Z.

(** Follows the words of the specification: the labels of a step in a
    fixed order, those of a false flag left out. *)
Fixpoint keepFlagged (labels : list (bool * string)) : list string :=
  match labels with
  | [] => []
  | (true, label) :: rest => label :: keepFlagged rest
  | (false, _) :: rest => keepFlagged rest
  end.

Definition stepLabels (useSymbols : bool) (platform : Platform) (step : Step)
    (keyLabel : string) : list string :=
  keepFlagged
    [ (step_ctrl step, ctrlLabel useSymbols);
      (step_meta step, metaLabel useSymbols platform);
      (step_shift step, shiftLabel useSymbols);
      (step_alt step, altLabel useSymbols platform);
      (keyTruthy (step_key step), keyLabel) ].

(** ** Vocabulary of the further properties *)

(** What a token of a step does, read off the branches of the loop of
    [parseSingle]. *)
Definition aliasOf (token : string) : option ModifierAlias :=
  modifierAliases_get (toLowerCase token).

Definition setsCtrl (platform : Platform) (treatMod : bool) (token : string) : bool :=
  match aliasOf token with
  | Some AliasCtrl => true
  | Some AliasMod => treatMod && negb (bool_decide (platform = mac))
  | _ => false
  end.

Definition setsMeta (platform : Platform) (treatMod : bool) (token : string) : bool :=
  match aliasOf token with
  | Some AliasMeta => true
  | Some AliasMod => treatMod && bool_decide (platform = mac)
  | _ => false
  end.

Definition setsShift (token : string) : bool :=
  match aliasOf token with Some AliasShift => true | _ => false end.

Definition setsAlt (token : string) : bool :=
  match aliasOf token with Some AliasAlt => true | _ => false end.

Definition isKeyToken (treatMod : bool) (token : string) : bool :=
  match aliasOf token with
  | None => true
  | Some AliasMod => negb treatMod
  | Some _ => false
  end.

(** Some character of [s] is not white space. *)
Definition nonBlank (s : string) : bool := negb (forallChars isWhiteSpace s).

Definition notSpace (c : ascii) : bool := negb (Ascii.eqb c " ").

(** No modifier is held. *)
Definition noModifiers (event : KeyboardEvent) : bool :=
  negb (ctrlKey event || metaKey event || shiftKey event || altKey event).

(** The event matches some pattern of the list, as the simple closure
    tests it. *)
Definition triggers (nav : option string) (normalized : list string)
    (options : MatchOptions) (event : KeyboardEvent) : bool :=
  match matchAnyHotkey nav event (inr normalized) (Some options) with
  | Ok true => true
  | _ => false
  end.

(** The options the simple closure matches with: [{ ...options, platform }]. *)
Definition resolvedOptions (nav : option string) (options : option MatchOptions)
    : MatchOptions :=
  mkMatchOptions (Some (optPlatform nav options)) (options ≫= caseSensitive)
                 (options ≫= treatModAsPlatformMeta).

(** The events of a stream, without their times. *)
Definition eventsOf (stream : list (Z * KeyboardEvent)) : list KeyboardEvent :=
  stream.*2.

(** Each event of the stream arrives less than [window] after the one
    before it. *)
Definition withinWindow (window : Z) (stream : list (Z * KeyboardEvent)) : Prop :=
  Forall (fun timed : Z * KeyboardEvent => (0 <= timed.1 < window)%Z) stream.

(** The dispatches that trigger the callback: of the listened type, and
    matching. *)
Definition fires (keys : string + list string) (o : HotkeysOptions) (d : Dispatch)
    : bool :=
  bool_decide (dispatchType d = optEventType o) && matchEvent keys o (dispatchEvent d).

(** A key-up of one of the keys, which the deactivation listener acts on. *)
Definition deactivates (keys : string + list string) (d : Dispatch) : bool :=
  bool_decide (dispatchType d = keyup) &&
  bool_decide (ev_key (dispatchEvent d) ∈ normalizedKeys keys).

(** The event differs from [event] at most by holding more modifiers. *)
Definition holdsMore (event event' : KeyboardEvent) : Prop :=
  ev_key event' = ev_key event /\
  (ctrlKey event = true -> ctrlKey event' = true) /\
  (metaKey event = true -> metaKey event' = true) /\
  (shiftKey event = true -> shiftKey event' = true) /\
  (altKey event = true -> altKey event' = true).

(** The options [formatPattern] parses with: [{ platform }]. *)
Definition platformOnly (platform : Platform) : option MatchOptions :=
  Some (mkMatchOptions (Some platform) None None).

(** Word style with ["+"] as separator. *)
Definition plusWords (platform : option Platform) : option FormatOptions :=
  Some (mkFormatOptions platform (Some false) (Some "+")).

Definition notBlankChar (c : ascii) : bool := negb (isWhiteSpace c).

(** A character that can stand inside a token, and a string that reads
    back as one token: not empty, no white space, no ["+"]. *)
Definition tokenChar (c : ascii) : bool :=
  negb (isWhiteSpace c) && negb (Ascii.eqb c "+").

Definition isToken (s : string) : bool := truthy s && forallChars tokenChar s.

(** The own entries of [specialKeyMap]. *)
Definition specialKeys : list (string * string) := map_to_list specialKeyMap.

Global Instance ModifierAlias_eq_dec : EqDecision ModifierAlias.
Proof. solve_decision. Defined.

(** The word label of a named key reads back as that key. *)
Definition specialLabelOk (v : string) : bool :=
  match toKeyLabel false (Some (KStr v)) with
  | Ok label =>
      truthy v && isToken label && bool_decide (aliasOf label = None)
      && bool_decide (normalizeKeyName label false = KStr v)
  | Throw _ => false
  end.

(** The word labels of the modifiers of a step, in the order of the
    formatter. *)
Definition flagLabels (platform : Platform) (c m s a : bool) : list string :=
  ((if c then [ctrlLabel false] else [])
   ++ (if m then [metaLabel false platform] else [])
   ++ (if s then [shiftLabel false] else [])
   ++ (if a then [altLabel false platform] else []))%list.

(** * Properties *)

(** ** Strings *)

Lemma split_nonempty sep s : split sep s <> [].
Proof.
  destruct s as [|c r]; simpl; [easy|].
  destruct (Ascii.eqb c sep); [easy|]. destruct (split sep r); easy.
Qed.

Lemma split_forallChars P sep s :
  forallChars P s = true -> Forall (fun t => forallChars P t = true) (split sep s).
Proof.
  induction s as [|c r IH]; simpl; intros H.
  - repeat constructor.
  - apply andb_true_iff in H as [Hc Hr]. specialize (IH Hr).
    destruct (Ascii.eqb c sep).
    + constructor; [reflexivity | exact IH].
    + destruct (split sep r) as [|hd tl].
      * repeat constructor. simpl. now rewrite Hc.
      * inversion IH; subst. constructor; [simpl; now rewrite Hc | assumption].
Qed.

Lemma split_no_sep sep s :
  Forall (fun t => forallChars (fun c => negb (Ascii.eqb c sep)) t = true) (split sep s).
Proof.
  induction s as [|c r IH]; simpl.
  - repeat constructor.
  - destruct (Ascii.eqb c sep) eqn:E.
    + constructor; [reflexivity | exact IH].
    + destruct (split sep r) as [|hd tl].
      * repeat constructor. simpl. now rewrite E.
      * inversion IH; subst. constructor; [simpl; now rewrite E | assumption].
Qed.

Lemma trimStart_forallChars P s :
  forallChars P s = true -> forallChars P (trimStart s) = true.
Proof.
  induction s as [|c r IH]; simpl; [easy|]. intros H.
  destruct (isWhiteSpace c); [|exact H].
  apply andb_true_iff in H as [_ Hr]. auto.
Qed.

Lemma trimEnd_forallChars P s :
  forallChars P s = true -> forallChars P (trimEnd s) = true.
Proof.
  induction s as [|c r IH]; simpl; [easy|]. intros H.
  apply andb_true_iff in H as [Hc Hr]. specialize (IH Hr).
  destruct (trimEnd r) as [|c' r'].
  - destruct (isWhiteSpace c); simpl; [reflexivity | now rewrite Hc].
  - simpl in *. now rewrite Hc, IH.
Qed.

Lemma trim_forallChars P s : forallChars P s = true -> forallChars P (trim s) = true.
Proof. intros H. unfold trim. now apply trimEnd_forallChars, trimStart_forallChars. Qed.

Lemma trim_blank s : forallChars isWhiteSpace s = true -> trim s = EmptyString.
Proof.
  unfold trim. induction s as [|c r IH]; simpl; [reflexivity|]. intros H.
  apply andb_true_iff in H as [Hc Hr]. rewrite Hc. auto.
Qed.

Lemma forallChars_and P Q s :
  forallChars P s = true -> forallChars Q s = true ->
  forallChars (fun c => P c && Q c) s = true.
Proof.
  induction s as [|c r IH]; simpl; [easy|]. intros H1 H2.
  apply andb_true_iff in H1 as [-> H1]. apply andb_true_iff in H2 as [-> H2]. simpl. auto.
Qed.

Lemma forallChars_impl (P Q : ascii -> bool) s :
  (forall c, P c = true -> Q c = true) ->
  forallChars P s = true -> forallChars Q s = true.
Proof.
  intros HPQ. induction s as [|c r IH]; simpl; [easy|]. intros H.
  apply andb_true_iff in H as [Hc Hr]. rewrite (HPQ _ Hc). simpl. auto.
Qed.

(** ** Parser *)

Lemma tokenize_plus_separators s : onlySeparators s = true -> tokenize "+" s = [].
Proof.
  intros H. unfold tokenize.
  pose proof (split_forallChars _ "+"%char s H) as H1.
  pose proof (split_no_sep "+"%char s) as H2.
  revert H1 H2. generalize (split "+" s) as pieces.
  induction pieces as [|t ts IH]; simpl; [reflexivity|]. intros H1 H2.
  inversion H1 as [|? ? Ha1 Hb1]; subst. inversion H2 as [|? ? Ha2 Hb2]; subst.
  rewrite trim_blank; simpl; [auto|].
  eapply forallChars_impl; [|apply (forallChars_and _ _ _ Ha1 Ha2)].
  intros c Hc. apply andb_true_iff in Hc as [Ha Hb]. unfold isSeparator in Ha.
  destruct (Ascii.eqb c "+"); [discriminate | exact Ha].
Qed.

Lemma parseSingle_separators nav s options :
  onlySeparators s = true -> parseSingle nav s options = emptyStep.
Proof. intros H. unfold parseSingle. now rewrite tokenize_plus_separators. Qed.

Lemma tokenize_forallChars P sep s :
  forallChars P s = true -> Forall (fun t => forallChars P t = true) (tokenize sep s).
Proof.
  intros H. unfold tokenize. apply List.Forall_forall. intros t Ht.
  apply filter_In in Ht as [Ht _]. apply in_map_iff in Ht as (u & <- & Hu).
  apply trim_forallChars.
  pose proof (split_forallChars P sep s H) as HF.
  rewrite List.Forall_forall in HF. auto.
Qed.

(** The structural invariant in equational form. *)
Lemma parsePattern_cases nav pattern options :
  (isSequence (parsePattern nav pattern options) = false /\
   parsePattern nav pattern options =
     let single := parseSingle nav pattern options in
     mkParsed (step_key single) (step_ctrl single) (step_meta single)
              (step_shift single) (step_alt single) false [single]) \/
  (isSequence (parsePattern nav pattern options) = true /\
   2 <= length (tokenize " " pattern) /\
   parsePattern nav pattern options =
     mkParsed None false false false false true
       (List.map (fun p => parseSingle nav p options) (tokenize " " pattern))).
Proof.
  unfold parsePattern. destruct (Nat.leb _ 1) eqn:E; simpl.
  - left. split; reflexivity.
  - right. apply Nat.leb_gt in E. repeat split; lia.
Qed.

(** C6. The value returned by [parsePattern] is either a simple pattern,
    whose [sequence] is the one step that the top-level fields repeat, or a
    sequence, whose top-level key is null and modifiers are false and whose
    [sequence] has at least two steps. *)
Theorem parsePattern_invariant nav pattern options :
  let parsed := parsePattern nav pattern options in
  (isSequence parsed = false ->
     exists step, sequence parsed = [step] /\
       step_key step = key parsed /\ step_ctrl step = ctrl parsed /\
       step_meta step = meta parsed /\ step_shift step = shift parsed /\
       step_alt step = alt parsed) /\
  (isSequence parsed = true ->
     key parsed = None /\ ctrl parsed = false /\ meta parsed = false /\
     shift parsed = false /\ alt parsed = false /\ 2 <= length (sequence parsed)).
Proof.
  intros parsed. subst parsed.
  destruct (parsePattern_cases nav pattern options) as [[Hs ->] | (Hs & Hlen & ->)]; simpl.
  - split; [|discriminate]. intros _. eexists. repeat split.
  - split; [discriminate|]. intros _. repeat split. now rewrite length_map.
Qed.

(** The invariant at ["Control+k"] and at ["g g"]. *)
Lemma parsePattern_invariant_witness :
  (exists step, sequence (parsePattern None "Control+k" None) = [step] /\
     step_key step = Some (KStr "k") /\ step_ctrl step = true) /\
  2 <= length (sequence (parsePattern None "g g" None)).
Proof.
  split.
  - destruct (proj1 (parsePattern_invariant None "Control+k" None) eq_refl)
      as (step & Hseq & Hk & Hc & _).
    exists step. repeat split; [exact Hseq | exact Hk | exact Hc].
  - exact (proj2 (proj2 (proj2 (proj2 (proj2
      (proj2 (parsePattern_invariant None "g g" None) eq_refl)))))).
Defined.

(** The testable properties of the specification about [parse]. *)
Example parse_control_k :
  parsePattern None "Control+k" None
  = mkParsed (Some (KStr "k")) true false false false false
             [mkStep (Some (KStr "k")) true false false false].
Proof. vm_compute. reflexivity. Qed.

Example parse_case_sensitive :
  key (parsePattern None "Control+K" (Some (mkMatchOptions None (Some true) None)))
  = Some (KStr "K").
Proof. vm_compute. reflexivity. Qed.

(** The README's ["Control + K"], written with spaces, is a sequence of
    three steps. *)
Example parse_spaced_plus :
  parsePattern None "Control + K" None
  = mkParsed None false false false false true
             [mkStep None true false false false; emptyStep;
              mkStep (Some (KStr "k")) false false false false].
Proof. vm_compute. reflexivity. Qed.

(** The inherited properties of [specialKeyMap] reach the key. *)
Example parse_constructor :
  key (parsePattern None "constructor" None) = Some KObjectFunction
  /\ key (parsePattern None "__proto__" None) = Some KObjectPrototype.
Proof. split; vm_compute; reflexivity. Qed.

(** ** Matcher lemmas *)

Lemma matchStep_modifiers_differ event step cs :
  modifiersEqual event step = false -> matchStep event step cs = Ok false.
Proof.
  unfold modifiersEqual, matchStep. intros H.
  destruct (Bool.eqb (step_ctrl step) (ctrlKey event)); simpl in *; [|reflexivity].
  destruct (Bool.eqb (step_meta step) (metaKey event)); simpl in *; [|reflexivity].
  destruct (Bool.eqb (step_shift step) (shiftKey event)); simpl in *; [|reflexivity].
  destruct (Bool.eqb (step_alt step) (altKey event)); simpl in *; [discriminate|reflexivity].
Qed.

Lemma matchStep_modifiers_equal event step cs :
  modifiersEqual event step = true ->
  matchStep event step cs =
    match step_key step with
    | None => Ok true
    | Some k => keyEquals (eventKeyComparable event cs) k cs
    end.
Proof.
  unfold modifiersEqual, matchStep. intros H.
  repeat (apply andb_true_iff in H as [H ?]).
  now repeat match goal with E : Bool.eqb _ _ = true |- _ => rewrite E; clear E end.
Qed.

Lemma modifiersEqual_true event step :
  modifiersEqual event step = true <->
  step_ctrl step = ctrlKey event /\ step_meta step = metaKey event /\
  step_shift step = shiftKey event /\ step_alt step = altKey event.
Proof.
  unfold modifiersEqual. rewrite !andb_true_iff, !eqb_true_iff. tauto.
Qed.

Lemma matchStep_true event step cs :
  matchStep event step cs = Ok true -> modifiersEqual event step = true.
Proof.
  intros H. destruct (modifiersEqual event step) eqn:E; [reflexivity|].
  rewrite (matchStep_modifiers_differ _ _ cs E) in H. discriminate.
Qed.

(** The eager comparison of the sequence closure agrees with [matchStep]
    whenever it returns. *)
Lemma stepMatches_matchStep event step options b :
  stepMatches event step options = Ok b ->
  matchStep event step (optCaseSensitive options) = Ok b.
Proof.
  unfold stepMatches. fold (modifiersEqual event step).
  destruct (modifiersEqual event step) eqn:E.
  - rewrite (matchStep_modifiers_equal _ _ _ E).
    destruct (step_key step) as [k|]; simpl.
    + destruct (keyEquals _ k _); simpl; congruence.
    + congruence.
  - rewrite (matchStep_modifiers_differ _ _ _ E).
    destruct (step_key step) as [k|]; simpl.
    + destruct (keyEquals _ k _); simpl; congruence.
    + congruence.
Qed.

Lemma matchHotkey_simple nav event pattern options :
  isSequence (parsePattern nav pattern options) = false ->
  matchHotkey nav event pattern options =
    matchStep event (parseSingle nav pattern options) (optCaseSensitive options).
Proof.
  intros Hs. unfold matchHotkey. rewrite Hs.
  destruct (parsePattern_cases nav pattern options) as [[_ ->] | [Hs' _]];
    [|congruence].
  simpl. now destruct (parseSingle nav pattern options).
Qed.

(** With string keys [matchStep] is the comparison of the specification:
    equal modifiers and, unless the key is null, equal canonical keys. *)
Lemma matchStep_string_key event c m s a k cs :
  matchStep event (mkStep (KStr <$> k) c m s a) cs
  = Ok (modifiersEqual event (mkStep (KStr <$> k) c m s a) &&
        match k with
        | None => true
        | Some name =>
            String.eqb (eventKeyComparable event cs)
              (if Nat.eqb (String.length name) 1
               then (if cs then name else toLowerCase name)
               else name)
        end).
Proof.
  destruct (modifiersEqual event (mkStep (KStr <$> k) c m s a)) eqn:E.
  - rewrite (matchStep_modifiers_equal _ _ _ E). now destruct k.
  - now rewrite (matchStep_modifiers_differ _ _ _ E).
Qed.

Example match_control_k :
  matchHotkey None (mkEvent "k" true false false false) "Control+k" None = Ok true.
Proof. vm_compute. reflexivity. Qed.

Example match_case_sensitive :
  matchHotkey None (mkEvent "k" true false false false) "Control+K"
              (Some (mkMatchOptions None (Some true) None)) = Ok false.
Proof. vm_compute. reflexivity. Qed.

(** A key that is the function [Object] makes the comparison throw, but
    only once the modifiers have been found equal. *)
Example match_constructor_throws :
  matchHotkey None (keyEvent "a") "constructor" None = Throw TypeError
  /\ matchHotkey None (mkEvent "a" true false false false) "constructor" None = Ok false
  /\ stepMatches (mkEvent "a" true false false false)
                 (mkStep (Some KObjectFunction) false false false false) None
     = Throw TypeError.
Proof. repeat split; vm_compute; reflexivity. Qed.

Lemma parsePattern_empty nav options :
  parsePattern nav EmptyString options = mkParsed None false false false false false [emptyStep].
Proof. reflexivity. Qed.

(** C7. [parsePattern] returns a pattern for every string, with a non-empty
    list of steps.  The empty pattern is the single step with a null key
    and no modifier, which matches exactly the events with no modifier
    held, whatever their key; and a pattern made of separators only has
    nothing but such steps. *)
Theorem parsePattern_never_fails nav :
  (forall pattern options,
     exists parsed, parsePattern nav pattern options = parsed /\ sequence parsed <> []) /\
  (forall options,
     parsePattern nav EmptyString options
     = mkParsed None false false false false false [emptyStep]) /\
  (forall options event,
     matchHotkey nav event EmptyString options
     = Ok (negb (ctrlKey event || metaKey event || shiftKey event || altKey event))) /\
  (forall pattern options,
     onlySeparators pattern = true ->
     let parsed := parsePattern nav pattern options in
     key parsed = None /\ ctrl parsed = false /\ meta parsed = false /\
     shift parsed = false /\ alt parsed = false /\
     Forall (fun step => step = emptyStep) (sequence parsed)).
Proof.
  split; [|split; [|split]].
  - intros pattern options. eexists. split; [reflexivity|].
    destruct (parsePattern_cases nav pattern options) as [[_ ->] | (_ & Hlen & ->)]; simpl.
    + discriminate.
    + intros E. apply (f_equal (@length Step)) in E. rewrite length_map in E.
      simpl in E. lia.
  - intros options. apply parsePattern_empty.
  - intros options event. rewrite matchHotkey_simple by reflexivity.
    change (parseSingle nav EmptyString options) with emptyStep.
    destruct event as [k [] [] [] []]; reflexivity.
  - intros pattern options Hsep parsed. subst parsed.
    destruct (parsePattern_cases nav pattern options) as [[_ ->] | (_ & _ & ->)]; simpl.
    + rewrite parseSingle_separators by exact Hsep.
      repeat split. repeat constructor.
    + repeat split.
      pose proof (tokenize_forallChars _ " "%char pattern Hsep) as HF.
      induction HF as [|t ts Ht _ IH]; simpl; constructor; [|exact IH].
      now apply parseSingle_separators.
Qed.

(** A pattern of separators only, ["+ +"], parses to empty steps. *)
Lemma parsePattern_never_fails_witness :
  let parsed := parsePattern None "+ +" None in
  key parsed = None /\ ctrl parsed = false /\ meta parsed = false /\
  shift parsed = false /\ alt parsed = false /\
  Forall (fun step => step = emptyStep) (sequence parsed).
Proof.
  apply (proj2 (proj2 (proj2 (parsePattern_never_fails None))) "+ +" None).
  reflexivity.
Defined.

(** ** The [mod] alias *)

(** C4, as the specification states it, fails: with
    [treatModAsPlatformMeta] off, the token [mod] is not dropped but
    becomes the key of the step. *)
Lemma mod_ignored_counterexample :
  parsePattern None "mod" modOffOptions
  = mkParsed (Some (KStr "Mod")) false false false false false
             [mkStep (Some (KStr "Mod")) false false false false]
  /\ key (parsePattern None "mod" modOffOptions) <> None.
Proof. split; [vm_compute; reflexivity | vm_compute; discriminate]. Qed.

Lemma parsePattern_one_token nav options token :
  tokenize " " token = [token] -> tokenize "+" token = [token] ->
  parsePattern nav token options =
    let single := parseToken (optPlatform nav options) (optCaseSensitive options)
                             (optTreatMod options) emptyStep token in
    mkParsed (step_key single) (step_ctrl single) (step_meta single)
             (step_shift single) (step_alt single) false [single].
Proof.
  intros H1 H2. unfold parsePattern, parseSingle. rewrite H1, H2. reflexivity.
Qed.

(** C4, amended.  A token that lowercases to [mod] never changes [shift] or
    [alt].  With [treatModAsPlatformMeta] on it sets [meta] on mac and
    [ctrl] on every other platform and leaves the key alone; with the flag
    off it sets no modifier and is taken as the key token, normalized like
    any other key name, so that ["mod"] parses to the key ["Mod"] (["mod"]
    when case-sensitive) with the four modifiers false. *)
Theorem mod_alias nav :
  (forall platform caseSensitive treatMod acc token,
     toLowerCase token = "mod" ->
     parseToken platform caseSensitive treatMod acc token =
       if treatMod then
         (if decide (platform = mac)
          then mkStep (step_key acc) (step_ctrl acc) true (step_shift acc) (step_alt acc)
          else mkStep (step_key acc) true (step_meta acc) (step_shift acc) (step_alt acc))
       else mkStep (Some (normalizeKeyName token caseSensitive))
                   (step_ctrl acc) (step_meta acc) (step_shift acc) (step_alt acc)) /\
  (forall options,
     optTreatMod options = false ->
     let k := Some (KStr (if optCaseSensitive options then "mod" else "Mod")) in
     parsePattern nav "mod" options
     = mkParsed k false false false false false [mkStep k false false false false]) /\
  (forall options,
     optTreatMod options = true ->
     let isMac := bool_decide (optPlatform nav options = mac) in
     parsePattern nav "mod" options
     = mkParsed None (negb isMac) isMac false false false
                [mkStep None (negb isMac) isMac false false]).
Proof.
  assert (Htok : forall platform caseSensitive treatMod acc token,
     toLowerCase token = "mod" ->
     parseToken platform caseSensitive treatMod acc token =
       if treatMod then
         (if decide (platform = mac)
          then mkStep (step_key acc) (step_ctrl acc) true (step_shift acc) (step_alt acc)
          else mkStep (step_key acc) true (step_meta acc) (step_shift acc) (step_alt acc))
       else mkStep (Some (normalizeKeyName token caseSensitive))
                   (step_ctrl acc) (step_meta acc) (step_shift acc) (step_alt acc)).
  { intros platform cs treatMod [k c m s a] token Hlow. unfold parseToken.
    rewrite Hlow. change (modifierAliases_get "mod") with (Some AliasMod).
    reflexivity. }
  split; [exact Htok|]. split.
  - intros options Hoff k. subst k.
    rewrite parsePattern_one_token by reflexivity.
    rewrite Htok by reflexivity. rewrite Hoff.
    destruct (optCaseSensitive options); reflexivity.
  - intros options Hon isMac. subst isMac.
    rewrite parsePattern_one_token by reflexivity.
    rewrite Htok by reflexivity. rewrite Hon.
    destruct (decide (optPlatform nav options = mac)) as [E|E].
    + rewrite bool_decide_eq_true_2 by exact E. reflexivity.
    + rewrite bool_decide_eq_false_2 by exact E. reflexivity.
Qed.

(** ["mod"] on a mac, on Windows, and with the flag off. *)
Lemma mod_alias_witness :
  parsePattern (Some "MacIntel") "mod" None
  = mkParsed None false true false false false [mkStep None false true false false]
  /\ parsePattern (Some "Win32") "mod" None
  = mkParsed None true false false false false [mkStep None true false false false]
  /\ parsePattern None "mod" modOffOptions
  = mkParsed (Some (KStr "Mod")) false false false false false
             [mkStep (Some (KStr "Mod")) false false false false].
Proof.
  split; [|split].
  - apply (proj2 (proj2 (mod_alias (Some "MacIntel"))) None). reflexivity.
  - apply (proj2 (proj2 (mod_alias (Some "Win32"))) None). reflexivity.
  - apply (proj1 (proj2 (mod_alias None)) modOffOptions). reflexivity.
Defined.

(** ** The single-shot matcher *)

(** C2. [matchHotkey] returns true only when the four modifier flags of the
    event equal those of the parsed pattern; any difference, such as an
    extra modifier held, gives false; and when the pattern has a null key,
    equal modifiers are enough, whatever key the event carries. *)
Theorem matchHotkey_exact_modifiers nav :
  (forall event pattern options,
     matchHotkey nav event pattern options = Ok true ->
     let parsed := parsePattern nav pattern options in
     ctrl parsed = ctrlKey event /\ meta parsed = metaKey event /\
     shift parsed = shiftKey event /\ alt parsed = altKey event) /\
  (forall event pattern options,
     let parsed := parsePattern nav pattern options in
     (ctrl parsed <> ctrlKey event \/ meta parsed <> metaKey event \/
      shift parsed <> shiftKey event \/ alt parsed <> altKey event) ->
     matchHotkey nav event pattern options = Ok false) /\
  (forall event pattern options,
     let parsed := parsePattern nav pattern options in
     isSequence parsed = false -> key parsed = None ->
     ctrl parsed = ctrlKey event -> meta parsed = metaKey event ->
     shift parsed = shiftKey event -> alt parsed = altKey event ->
     matchHotkey nav event pattern options = Ok true) /\
  matchHotkey nav (mkEvent "k" true false true false) "Control+k" None = Ok false.
Proof.
  split; [|split; [|split]].
  - intros event pattern options H parsed. subst parsed.
    unfold matchHotkey in H.
    destruct (isSequence (parsePattern nav pattern options)); [discriminate|].
    apply matchStep_true, modifiersEqual_true in H. exact H.
  - intros event pattern options parsed Hdiff. subst parsed.
    unfold matchHotkey.
    destruct (isSequence (parsePattern nav pattern options)); [reflexivity|].
    apply matchStep_modifiers_differ.
    apply not_true_is_false. intros E. apply modifiersEqual_true in E. simpl in E.
    tauto.
  - intros event pattern options parsed Hs Hk Hc Hm Hsh Ha. subst parsed.
    unfold matchHotkey. rewrite Hs.
    rewrite matchStep_modifiers_equal; simpl.
    + now rewrite Hk.
    + apply modifiersEqual_true. simpl. tauto.
  - vm_compute. reflexivity.
Qed.

(** A modifier-only pattern, an extra modifier, and a match read back. *)
Lemma matchHotkey_exact_modifiers_witness :
  matchHotkey None (mkEvent "x" true false false false) "Control" None = Ok true
  /\ matchHotkey None (mkEvent "k" true false true false) "Control+k" None = Ok false
  /\ (ctrl (parsePattern None "Control+k" None) = true
      /\ meta (parsePattern None "Control+k" None) = false
      /\ shift (parsePattern None "Control+k" None) = false
      /\ alt (parsePattern None "Control+k" None) = false).
Proof.
  split; [|split].
  - apply (proj1 (proj2 (proj2 (matchHotkey_exact_modifiers None)))
             (mkEvent "x" true false false false) "Control" None); reflexivity.
  - apply (proj1 (proj2 (matchHotkey_exact_modifiers None))
             (mkEvent "k" true false true false) "Control+k" None).
    right. right. left. vm_compute. discriminate.
  - apply (proj1 (matchHotkey_exact_modifiers None)
             (mkEvent "k" true false false false) "Control+k" None).
    vm_compute. reflexivity.
Defined.

(** C8. On a pattern that parses as a sequence [matchHotkey] returns false
    for every event; on any other pattern it is the comparison of the
    event with the single step of the pattern. *)
Theorem matchHotkey_sequence_false nav event pattern options :
  let parsed := parsePattern nav pattern options in
  (isSequence parsed = true -> matchHotkey nav event pattern options = Ok false) /\
  (isSequence parsed = false ->
     exists step, sequence parsed = [step] /\
       matchHotkey nav event pattern options
       = matchStep event step (optCaseSensitive options)).
Proof.
  intros parsed. subst parsed. split; intros Hs.
  - unfold matchHotkey. now rewrite Hs.
  - exists (parseSingle nav pattern options). split.
    + destruct (parsePattern_cases nav pattern options) as [[_ ->] | [Hs' _]];
        [reflexivity | congruence].
    + now apply matchHotkey_simple.
Qed.

(** The sequence ["g g"] and the simple pattern ["Control+k"]. *)
Lemma matchHotkey_sequence_false_witness :
  matchHotkey None (keyEvent "g") "g g" None = Ok false
  /\ exists step, sequence (parsePattern None "Control+k" None) = [step] /\
       matchHotkey None (mkEvent "k" true false false false) "Control+k" None
       = matchStep (mkEvent "k" true false false false) step false.
Proof.
  split.
  - apply (proj1 (matchHotkey_sequence_false None (keyEvent "g") "g g" None)).
    reflexivity.
  - apply (proj2 (matchHotkey_sequence_false None
                    (mkEvent "k" true false false false) "Control+k" None)).
    reflexivity.
Defined.

(** ** The timer table *)

Lemma timerInv_cancel w :
  timerInv w ->
  cancelTimer w = mkWorld (now w) ∅ (nextHandle w) (index w) None (calls w).
Proof.
  unfold timerInv, cancelTimer. destruct w as [n ts nh i [h|] cs]; simpl.
  - intros [[due ->] _]. unfold setTimer, clearTimeout; simpl.
    now rewrite delete_singleton_eq.
  - now intros ->.
Qed.

Lemma timerDelay_small ms : (0 <= ms < 2147483648)%Z -> timerDelay ms = ms.
Proof.
  intros H. unfold timerDelay, toInt32. rewrite Z.mod_small by lia. lia.
Qed.

Lemma timerDelay_zero : timerDelay 0 = 0%Z.
Proof. reflexivity. Qed.

Section RunDueTimers.
Variable tie : bool.

Lemma runDueTimers_empty w : timers w = ∅ -> runDueTimers tie w = w.
Proof.
  intros H. unfold runDueTimers, dueHandles. rewrite H.
  now rewrite map_filter_empty, map_to_list_empty.
Qed.

Lemma runDueTimers_pending w h due :
  timers w = {[h := due]} -> isDue tie (now w) due = false -> runDueTimers tie w = w.
Proof.
  intros H Hd. unfold runDueTimers, dueHandles. rewrite H.
  rewrite map_filter_singleton_False; [now rewrite map_to_list_empty|].
  simpl. now rewrite Hd.
Qed.

Lemma runDueTimers_due w h due :
  timers w = {[h := due]} -> isDue tie (now w) due = true ->
  runDueTimers tie w = mkWorld (now w) ∅ (nextHandle w) 0 None (calls w).
Proof.
  intros H Hd. unfold runDueTimers, dueHandles. rewrite H.
  rewrite map_filter_singleton_True by exact Hd.
  rewrite map_to_list_singleton. simpl.
  unfold fireTimer, timerCallback, setTimer, setIndex, clearTimeout; simpl.
  now rewrite H, delete_singleton_eq.
Qed.

(** Once time has moved past the due time the timer runs, whichever way
    ties are broken; before the due time it does not. *)
Lemma isDue_past n due : (due < n)%Z -> isDue tie n due = true.
Proof. unfold isDue. destruct tie; [rewrite Z.leb_le | rewrite Z.ltb_lt]; lia. Qed.

Lemma isDue_before n due : (n < due)%Z -> isDue tie n due = false.
Proof. unfold isDue. destruct tie; [rewrite Z.leb_gt | rewrite Z.ltb_ge]; lia. Qed.

End RunDueTimers.

(** ** The transition function of the sequence closure *)

Section Transition.
Variables (seq : list Step) (ms : Z) (options : option MatchOptions).

Lemma sequenceHandler_complete event w current :
  timerInv w -> seq !! index w = Some current ->
  stepMatches event current options = Ok true ->
  index w + 1 = length seq ->
  sequenceHandler seq ms options event w
  = Ok (mkWorld (now w) ∅ (nextHandle w) 0 None (calls w ++ [event])).
Proof.
  intros Hinv Hcur Hm Hlast. unfold sequenceHandler. rewrite Hcur, Hm. simpl.
  rewrite Hlast, Nat.eqb_refl.
  rewrite timerInv_cancel.
  - reflexivity.
  - destruct w; exact Hinv.
Qed.

Lemma sequenceHandler_advance event w current :
  timerInv w -> seq !! index w = Some current ->
  stepMatches event current options = Ok true ->
  index w + 1 < length seq ->
  sequenceHandler seq ms options event w
  = Ok (mkWorld (now w) {[nextHandle w := (now w + timerDelay ms)%Z]}
                (Pos.succ (nextHandle w)) (index w + 1) (Some (nextHandle w))
                (calls w)).
Proof.
  intros Hinv Hcur Hm Hlt. unfold sequenceHandler. rewrite Hcur, Hm. simpl.
  destruct (Nat.eqb_spec (index w + 1) (length seq)) as [E|_]; [lia|].
  unfold timerInv in Hinv. destruct w as [n ts nh i [h|] cs]; simpl in *.
  - destruct Hinv as [[due ->] _].
    unfold setTimeout, setTimer, clearTimeout; simpl.
    now rewrite delete_singleton_eq, insert_empty.
  - subst ts. unfold setTimeout, setTimer; simpl. now rewrite insert_empty.
Qed.

Lemma sequenceHandler_reset event w current :
  timerInv w -> seq !! index w = Some current ->
  stepMatches event current options = Ok false ->
  sequenceHandler seq ms options event w
  = Ok (mkWorld (now w) ∅ (nextHandle w) 0 None (calls w)).
Proof.
  intros Hinv Hcur Hm. unfold sequenceHandler. rewrite Hcur, Hm. simpl.
  rewrite timerInv_cancel.
  - reflexivity.
  - destruct w; exact Hinv.
Qed.

Lemma sequenceHandler_throw event w current err :
  seq !! index w = Some current ->
  stepMatches event current options = Throw err ->
  sequenceHandler seq ms options event w = Throw err.
Proof. intros Hcur Hm. unfold sequenceHandler. now rewrite Hcur, Hm. Qed.

Lemma wellFormed_current w :
  wellFormed seq w -> exists current, seq !! index w = Some current.
Proof. intros [[Hlt _] _]. now apply lookup_lt_is_Some_2. Qed.

(** The listener keeps the world well formed. *)
Lemma sequenceHandler_wellFormed event w w' :
  wellFormed seq w -> sequenceHandler seq ms options event w = Ok w' ->
  wellFormed seq w'.
Proof.
  intros Hwf Hrun. destruct (wellFormed_current w Hwf) as [current Hcur].
  destruct Hwf as [[Hlt Hprog] Hinv].
  destruct (stepMatches event current options) as [[|]|err] eqn:Hm.
  - destruct (decide (index w + 1 = length seq)) as [Hlast|Hnot].
    + rewrite (sequenceHandler_complete _ _ _ Hinv Hcur Hm Hlast) in Hrun.
      injection Hrun as <-. repeat split; simpl; auto; lia.
    + rewrite (sequenceHandler_advance _ _ _ Hinv Hcur Hm) in Hrun by lia.
      injection Hrun as <-. repeat split; simpl; try lia; try discriminate; eauto.
  - rewrite (sequenceHandler_reset _ _ _ Hinv Hcur Hm) in Hrun.
    injection Hrun as <-. repeat split; simpl; auto; lia.
  - rewrite (sequenceHandler_throw _ _ _ _ Hcur Hm) in Hrun. discriminate.
Qed.

Lemma advance_wellFormed gap w : wellFormed seq w -> wellFormed seq (advance gap w).
Proof. destruct w. exact id. Qed.

Lemma runDueTimers_wellFormed tie w :
  seq <> [] -> wellFormed seq w -> wellFormed seq (runDueTimers tie w).
Proof.
  intros Hne Hwf. pose proof Hwf as [[Hlt Hprog] Hinv]. unfold timerInv in Hinv.
  destruct (timer w) as [h|] eqn:Ht.
  - destruct Hinv as [[due Hts] Hh].
    destruct (isDue tie (now w) due) eqn:Hd.
    + rewrite (runDueTimers_due _ _ _ _ Hts Hd).
      repeat split; simpl; auto. destruct seq; [congruence | simpl; lia].
    + now rewrite (runDueTimers_pending _ _ _ _ Hts Hd).
  - now rewrite runDueTimers_empty.
Qed.

End Transition.

(** ** Handlers built by [createHotkeyHandler] *)

Lemma createHotkeyHandler_sequence nav patterns options :
  existsb (parsesAsSequence nav options) (normalizedOf patterns) = true ->
  exists before firstSeq after,
    normalizedOf patterns = (before ++ firstSeq :: after)%list /\
    Forall (fun p => parsesAsSequence nav options p = false) before /\
    parsesAsSequence nav options firstSeq = true /\
    createHotkeyHandler nav patterns options
    = Ok (SequenceHandler (sequence (parsePattern nav firstSeq options))
                          (timeoutOf patterns) options).
Proof.
  intros Hex. unfold createHotkeyHandler. rewrite Hex.
  revert Hex. generalize (normalizedOf patterns) as l.
  induction l as [|p l IH]; simpl; [discriminate|]. intros Hex.
  destruct (parsesAsSequence nav options p) eqn:Hp.
  - exists [], p, l. repeat split; [constructor | exact Hp].
  - simpl in Hex. destruct (IH Hex) as (before & firstSeq & after & -> & Hb & Hf & Hc).
    exists (p :: before), firstSeq, after. repeat split; [constructor; assumption | exact Hf | exact Hc].
Qed.

Lemma createHotkeyHandler_inv nav patterns options seq ms opts :
  createHotkeyHandler nav patterns options = Ok (SequenceHandler seq ms opts) ->
  ms = timeoutOf patterns /\ opts = options /\ 2 <= length seq.
Proof.
  unfold createHotkeyHandler.
  destruct (existsb _ _) eqn:Hex; [|discriminate].
  destruct (find _ _) as [firstSeq|] eqn:Hfind; [|discriminate].
  intros [= <- <- <-]. repeat split.
  apply find_some in Hfind as [_ Hseq]. unfold parsesAsSequence in Hseq.
  destruct (parsePattern_cases nav firstSeq options) as [[Hs _] | (_ & Hlen & ->)];
    [congruence|].
  simpl. now rewrite length_map.
Qed.

Lemma reachable_wellFormed nav seq ms opts w :
  seq <> [] -> reachable nav (SequenceHandler seq ms opts) w -> wellFormed seq w.
Proof.
  intros Hne Hr. induction Hr as [|w gap _ IH|w tie _ IH|w event w' _ IH Hrun].
  - repeat split; simpl; auto. destruct seq; [congruence | simpl; lia].
  - now apply advance_wellFormed.
  - now apply runDueTimers_wellFormed.
  - simpl in Hrun. eapply sequenceHandler_wellFormed; eassumption.
Qed.

Lemma parse_g_g nav :
  parsePattern nav "g g" None
  = mkParsed None false false false false true [stepG; stepG].
Proof. vm_compute. reflexivity. Qed.

Lemma parse_g_h nav :
  parsePattern nav "g h" None
  = mkParsed None false false false false true [stepG; stepH].
Proof. vm_compute. reflexivity. Qed.

Lemma create_g_g nav patterns :
  normalizedOf patterns = ["g g"] ->
  createHotkeyHandler nav patterns None
  = Ok (SequenceHandler [stepG; stepG] (timeoutOf patterns) None).
Proof.
  intros H.
  assert (Hs : parsesAsSequence nav None "g g" = true)
    by (unfold parsesAsSequence; now rewrite parse_g_g).
  unfold createHotkeyHandler. rewrite H. cbn [existsb find]. rewrite Hs.
  cbn [orb]. now rewrite parse_g_g.
Qed.

Lemma create_g_h nav patterns :
  normalizedOf patterns = ["g h"] ->
  createHotkeyHandler nav patterns None
  = Ok (SequenceHandler [stepG; stepH] (timeoutOf patterns) None).
Proof.
  intros H.
  assert (Hs : parsesAsSequence nav None "g h" = true)
    by (unfold parsesAsSequence; now rewrite parse_g_h).
  unfold createHotkeyHandler. rewrite H. cbn [existsb find]. rewrite Hs.
  cbn [orb]. now rewrite parse_g_h.
Qed.

(** ** Event streams *)

(** One delivery to a sequence closure: the due timers, then the listener. *)
Lemma deliver_sequence nav tie seq ms opts w gap event :
  deliver nav tie (SequenceHandler seq ms opts) w (gap, event)
  = let w1 := runDueTimers tie (advance gap w) in
    match sequenceHandler seq ms opts event w1 with
    | Ok w2 => w2
    | Throw _ => w1
    end.
Proof. reflexivity. Qed.

(** The worlds met while a stream is delivered are reachable. *)
Lemma run_reachable nav tie h stream w :
  reachable nav h w -> reachable nav h (run nav tie h stream w).
Proof.
  revert w. induction stream as [|[gap event] rest IH]; intros w Hw; [exact Hw|].
  simpl. apply IH. unfold deliver. cbn [fst snd].
  pose proof (reach_timers _ _ _ tie (reach_advance _ _ _ gap Hw)) as Hw1.
  destruct (invoke nav h event _) as [w2|err] eqn:Hrun; [|exact Hw1].
  exact (reach_listener _ _ _ _ _ Hw1 Hrun).
Qed.

Lemma gg_fires_once nav tie ms d0 gap :
  (0 <= gap < ms)%Z -> (ms < 2147483648)%Z ->
  calls (run nav tie (SequenceHandler [stepG; stepG] ms None)
             [(d0, keyEvent "g"); (gap, keyEvent "g")] initialWorld)
  = [keyEvent "g"].
Proof.
  intros Hgap Hms. unfold run. simpl fold_left.
  rewrite (deliver_sequence _ _ _ _ _ initialWorld). cbv zeta.
  rewrite runDueTimers_empty by reflexivity.
  rewrite (sequenceHandler_advance _ _ _ _ _ stepG); [|reflexivity..|simpl; lia].
  rewrite deliver_sequence. cbv zeta. rewrite timerDelay_small by lia.
  erewrite runDueTimers_pending; [|reflexivity|apply isDue_before; cbn [now advance]; lia].
  rewrite (sequenceHandler_complete _ _ _ _ _ stepG); [|split; [eexists; reflexivity|apply Pos.lt_succ_diag_r]|reflexivity..].
  reflexivity.
Qed.

(** The third stream of the specification: a second [g] arriving after
    the deadline finds no progress and only starts a new attempt. *)
Lemma gg_after_deadline nav tie ms d0 gap :
  (0 <= ms < gap)%Z -> (ms < 2147483648)%Z ->
  let w := run nav tie (SequenceHandler [stepG; stepG] ms None)
               [(d0, keyEvent "g"); (gap, keyEvent "g")] initialWorld in
  calls w = [] /\ index w = 1.
Proof.
  intros Hgap Hms. unfold run. simpl fold_left.
  rewrite (deliver_sequence _ _ _ _ _ initialWorld). cbv zeta.
  rewrite runDueTimers_empty by reflexivity.
  rewrite (sequenceHandler_advance _ _ _ _ _ stepG); [|reflexivity..|simpl; lia].
  rewrite deliver_sequence. cbv zeta. rewrite timerDelay_small by lia.
  erewrite runDueTimers_due; [|reflexivity|apply isDue_past; cbn [now advance]; lia].
  rewrite (sequenceHandler_advance _ _ _ _ _ stepG); [|reflexivity..|simpl; lia].
  split; reflexivity.
Qed.

Lemma gxg_never_fires nav tie ms d0 d1 d2 :
  calls (run nav tie (SequenceHandler [stepG; stepG] ms None)
             [(d0, keyEvent "g"); (d1, keyEvent "x"); (d2, keyEvent "g")]
             initialWorld)
  = [].
Proof.
  unfold run. simpl fold_left.
  rewrite (deliver_sequence _ _ _ _ _ initialWorld). cbv zeta.
  rewrite runDueTimers_empty by reflexivity.
  rewrite (sequenceHandler_advance _ _ _ _ _ stepG); [|reflexivity..|simpl; lia].
  rewrite (deliver_sequence _ _ _ _ _ _ d1). cbv zeta.
  match goal with
  | |- context [runDueTimers tie (advance d1 ?w)] =>
      destruct (isDue tie (now (advance d1 w))
                      (now (advance d0 initialWorld) + timerDelay ms)%Z) eqn:Hd;
      [ erewrite (runDueTimers_due tie (advance d1 w)); [|reflexivity|exact Hd]
      | erewrite (runDueTimers_pending tie (advance d1 w)); [|reflexivity|exact Hd] ]
  end.
  - rewrite (sequenceHandler_reset _ _ _ _ _ stepG); [|reflexivity..].
    rewrite deliver_sequence. cbv zeta.
    rewrite runDueTimers_empty by reflexivity.
    rewrite (sequenceHandler_advance _ _ _ _ _ stepG); [|reflexivity..|simpl; lia].
    reflexivity.
  - rewrite (sequenceHandler_reset _ _ _ _ _ stepG);
      [|split; [eexists; reflexivity|apply Pos.lt_succ_diag_r]|reflexivity..].
    rewrite deliver_sequence. cbv zeta.
    rewrite runDueTimers_empty by reflexivity.
    rewrite (sequenceHandler_advance _ _ _ _ _ stepG); [|reflexivity..|simpl; lia].
    reflexivity.
Qed.

Lemma ggh_never_fires nav tie ms d0 gap1 gap2 :
  (0 <= gap1 < ms)%Z -> (ms < 2147483648)%Z ->
  calls (run nav tie (SequenceHandler [stepG; stepH] ms None)
             [(d0, keyEvent "g"); (gap1, keyEvent "g"); (gap2, keyEvent "h")]
             initialWorld)
  = [].
Proof.
  intros Hgap Hms. unfold run. simpl fold_left.
  rewrite (deliver_sequence _ _ _ _ _ initialWorld). cbv zeta.
  rewrite runDueTimers_empty by reflexivity.
  rewrite (sequenceHandler_advance _ _ _ _ _ stepG); [|reflexivity..|simpl; lia].
  rewrite (deliver_sequence _ _ _ _ _ _ gap1). cbv zeta. rewrite timerDelay_small by lia.
  erewrite runDueTimers_pending; [|reflexivity|apply isDue_before; cbn [now advance]; lia].
  rewrite (sequenceHandler_reset _ _ _ _ _ stepH);
    [|split; [eexists; reflexivity|apply Pos.lt_succ_diag_r]|reflexivity..].
  rewrite deliver_sequence. cbv zeta.
  rewrite runDueTimers_empty by reflexivity.
  rewrite (sequenceHandler_reset _ _ _ _ _ stepG); [|reflexivity..].
  reflexivity.
Qed.



Lemma gg_then_reset nav tie ms d0 gap1 :
  (0 <= gap1 < ms)%Z -> (ms < 2147483648)%Z ->
  run nav tie (SequenceHandler [stepG; stepH] ms None)
      [(d0, keyEvent "g"); (gap1, keyEvent "g")] initialWorld
  = mkWorld (0 + Z.max 0 d0 + Z.max 0 gap1)%Z ∅ 2 0 None [].
Proof.
  intros Hgap Hms. unfold run. simpl fold_left.
  rewrite (deliver_sequence _ _ _ _ _ initialWorld). cbv zeta.
  rewrite runDueTimers_empty by reflexivity.
  rewrite (sequenceHandler_advance _ _ _ _ _ stepG); [|reflexivity..|simpl; lia].
  rewrite deliver_sequence. cbv zeta. rewrite timerDelay_small by lia.
  erewrite runDueTimers_pending; [|reflexivity|apply isDue_before; cbn [now advance]; lia].
  rewrite (sequenceHandler_reset _ _ _ _ _ stepH);
    [|split; [eexists; reflexivity|apply Pos.lt_succ_diag_r]|reflexivity..].
  reflexivity.
Qed.

Lemma ggh_dispatch nav ms :
  dispatch nav (SequenceHandler [stepG; stepH] ms None)
           [keyEvent "g"; keyEvent "g"] initialWorld
  = mkWorld 0 ∅ 2 0 None []
  /\ calls (dispatch nav (SequenceHandler [stepG; stepH] ms None)
                     [keyEvent "g"; keyEvent "g"; keyEvent "h"] initialWorld) = [].
Proof.
  unfold dispatch. cbn [fold_left invoke].
  rewrite (sequenceHandler_advance _ _ _ _ initialWorld stepG);
    [|reflexivity..|simpl; lia].
  rewrite (sequenceHandler_reset _ _ _ _ _ stepH);
    [|split; [eexists; reflexivity|apply Pos.lt_succ_diag_r]|reflexivity..].
  split; [reflexivity|].
  rewrite (sequenceHandler_reset _ _ _ _ _ stepG); [|reflexivity..].
  reflexivity.
Qed.



(** ** A timeout of zero *)

Lemma deliver_zero_timeout nav tie seq opts w gap event :
  2 <= length seq -> quiescent seq w -> (timers w = ∅ \/ (0 < gap)%Z) ->
  quiescent seq (deliver nav tie (SequenceHandler seq 0 opts) w (gap, event)).
Proof.
  intros Hlen (Hcalls & [[Hlt Hprog] Hinv] & Hdue) Hgap.
  rewrite deliver_sequence. cbv zeta.
  assert (Hw1 : runDueTimers tie (advance gap w)
                = mkWorld (now w + Z.max 0 gap)%Z ∅ (nextHandle w) 0 None []).
  { unfold timerInv in Hinv. destruct (timer w) as [h|] eqn:Ht.
    - destruct Hinv as [[due Hts] _].
      assert (0 < gap)%Z as Hpos.
      { destruct Hgap as [He|]; [|assumption]. rewrite Hts in He.
        apply (f_equal (lookup h)) in He.
        rewrite lookup_singleton_eq, lookup_empty in He. discriminate. }
      specialize (Hdue h due). rewrite Hts, lookup_singleton_eq in Hdue.
      specialize (Hdue eq_refl).
      rewrite (runDueTimers_due tie (advance gap w) h due).
      + destruct w; simpl in *; now subst.
      + destruct w; exact Hts.
      + apply isDue_past. destruct w; simpl in *. lia.
    - rewrite runDueTimers_empty by (destruct w; exact Hinv).
      assert (index w = 0) as Hi by now apply Hprog.
      destruct w; simpl in *. now subst. }
  rewrite Hw1. clear Hw1.
  set (w1 := mkWorld _ ∅ _ 0 None []).
  destruct (lookup_lt_is_Some_2 seq 0) as [current Hcur]; [lia|].
  destruct (stepMatches event current opts) as [[|]|err] eqn:Hm.
  - rewrite (sequenceHandler_advance _ _ _ _ w1 current);
      [|reflexivity|exact Hcur|exact Hm|simpl; lia].
    split; [reflexivity|]. split.
    + repeat split; simpl; try lia; try discriminate. eexists; reflexivity.
    + cbn [timers now]. intros h due Hl.
      apply lookup_singleton_Some in Hl as [_ <-]. rewrite timerDelay_zero. lia.
  - rewrite (sequenceHandler_reset _ _ _ _ w1 current);
      [|reflexivity|exact Hcur|exact Hm].
    split; [reflexivity|]. split.
    + repeat split; simpl; auto; lia.
    + simpl. intros h due Hl. now rewrite lookup_empty in Hl.
  - rewrite (sequenceHandler_throw _ _ _ _ w1 current err); [|exact Hcur|exact Hm].
    split; [reflexivity|]. split.
    + repeat split; simpl; auto; lia.
    + simpl. intros h due Hl. now rewrite lookup_empty in Hl.
Qed.

Lemma run_zero_timeout nav tie seq opts stream w :
  2 <= length seq -> quiescent seq w ->
  Forall (fun timed : Z * KeyboardEvent => (0 < timed.1)%Z) stream ->
  quiescent seq (run nav tie (SequenceHandler seq 0 opts) stream w).
Proof.
  intros Hlen Hq Hpos. revert w Hq.
  induction Hpos as [|[gap event] rest Hgap _ IH]; intros w Hq; [exact Hq|].
  simpl. apply IH. apply deliver_zero_timeout; auto.
Qed.

(** C3, as the specification states it, fails: registered as the plain
    string ["g g"], the closure has a timeout of 0, and two [g] presses
    100 ms apart, each matching its step, do not call the handler. *)
Lemma zero_timeout_counterexample :
  createHotkeyHandler (Some "Win32") (PString "g g") None
  = Ok (SequenceHandler [stepG; stepG] 0 None)
  /\ Forall2 (fun event step => stepMatches event step None = Ok true)
             [keyEvent "g"; keyEvent "g"] [stepG; stepG]
  /\ calls (run (Some "Win32") true (SequenceHandler [stepG; stepG] 0 None)
                [(0%Z, keyEvent "g"); (100%Z, keyEvent "g")] initialWorld) = []
  /\ calls (run (Some "Win32") false (SequenceHandler [stepG; stepG] 0 None)
                [(0%Z, keyEvent "g"); (100%Z, keyEvent "g")] initialWorld) = [].
Proof.
  split; [vm_compute; reflexivity|].
  split; [repeat constructor|].
  split; vm_compute; reflexivity.
Qed.

(** C3, amended.  A plain string or list gives the closure a timeout of 0,
    and a timeout of 0 is still enforced: the timer armed after a matching
    step is due at once, so whenever every event after the first arrives a
    positive time after the one before it, the handler is never called. *)
Theorem zero_timeout_resets nav tie :
  (forall patterns options seq ms opts,
     createHotkeyHandler nav patterns options = Ok (SequenceHandler seq ms opts) ->
     (forall ps timeout, patterns <> PConfig ps timeout) ->
     ms = 0%Z) /\
  (forall patterns options seq opts first rest,
     createHotkeyHandler nav patterns options = Ok (SequenceHandler seq 0 opts) ->
     Forall (fun timed : Z * KeyboardEvent => (0 < timed.1)%Z) rest ->
     calls (run nav tie (SequenceHandler seq 0 opts) (first :: rest) initialWorld) = []).
Proof.
  split.
  - intros patterns options seq ms opts Hcreate Hplain.
    apply createHotkeyHandler_inv in Hcreate as (-> & _ & _).
    destruct patterns as [s|l|ps timeout]; [reflexivity..|].
    now destruct (Hplain ps timeout).
  - intros patterns options seq opts [gap event] rest Hcreate Hpos.
    apply createHotkeyHandler_inv in Hcreate as (_ & _ & Hlen).
    simpl. apply (run_zero_timeout nav tie seq opts rest); [exact Hlen| |exact Hpos].
    apply deliver_zero_timeout; [exact Hlen| |left; reflexivity].
    split; [reflexivity|]. split.
    + repeat split; simpl; auto; lia.
    + simpl. intros h due Hl. now rewrite lookup_empty in Hl.
Qed.

(** Three [g] presses one millisecond apart, registered as a plain list. *)
Lemma zero_timeout_resets_witness :
  calls (run None true (SequenceHandler [stepG; stepG] 0 None)
             [(0%Z, keyEvent "g"); (1%Z, keyEvent "g"); (1%Z, keyEvent "g")]
             initialWorld) = [].
Proof.
  apply (proj2 (zero_timeout_resets None true) (PList ["k"; "g g"]) None).
  - vm_compute. reflexivity.
  - repeat constructor.
Defined.

(** ** Mixed pattern lists *)

Lemma existsb_filter {A} (f : A -> bool) l :
  existsb f l = existsb f (List.filter f l).
Proof.
  induction l as [|x l IH]; simpl; [reflexivity|].
  destruct (f x) eqn:E; simpl; [now rewrite E | exact IH].
Qed.

Lemma find_filter {A} (f : A -> bool) l : find f l = find f (List.filter f l).
Proof.
  induction l as [|x l IH]; simpl; [reflexivity|].
  destruct (f x) eqn:E; simpl; [now rewrite E | exact IH].
Qed.

(** The handler depends on the pattern list only through its sequence
    patterns. *)
Lemma createHotkeyHandler_filter nav patterns patterns' options :
  timeoutOf patterns' = timeoutOf patterns ->
  List.filter (parsesAsSequence nav options) (normalizedOf patterns')
  = List.filter (parsesAsSequence nav options) (normalizedOf patterns) ->
  existsb (parsesAsSequence nav options) (normalizedOf patterns) = true ->
  createHotkeyHandler nav patterns' options = createHotkeyHandler nav patterns options.
Proof.
  intros Ht Hf Hex. unfold createHotkeyHandler.
  rewrite Hex, Ht.
  rewrite (existsb_filter _ (normalizedOf patterns')), Hf, <- existsb_filter, Hex.
  now rewrite (find_filter _ (normalizedOf patterns')), Hf, <- find_filter.
Qed.

(** The sequence closure calls the handler only on completing the
    sequence. *)
Lemma sequenceHandler_calls seq ms opts event w w' :
  sequenceHandler seq ms opts event w = Ok w' ->
  calls w' = calls w \/
  (calls w' = (calls w ++ [event])%list /\ index w + 1 = length seq /\
   exists last, seq !! index w = Some last /\ stepMatches event last opts = Ok true).
Proof.
  unfold sequenceHandler.
  destruct (seq !! index w) as [current|] eqn:Hcur; [|discriminate].
  destruct (stepMatches event current opts) as [[|]|err] eqn:Hm; simpl; [| |discriminate].
  - destruct (Nat.eqb_spec (index w + 1) (length seq)) as [E|E].
    + intros [= <-]. right. split; [|split; [exact E | eauto]].
      unfold cancelTimer; simpl. now destruct (timer w).
    + intros [= <-]. left. now destruct (timer w).
  - intros [= <-]. left. unfold cancelTimer; simpl. now destruct (timer w).
Qed.

(** C5. When some pattern of the list parses as a sequence, the handler is
    the sequence closure of the first such pattern in list order.  The
    other patterns play no part: any list with the same sequence patterns
    gives the same handler, and the handler is called only by an event
    that completes the tracked sequence. *)
Theorem first_sequence_tracked nav patterns options :
  existsb (parsesAsSequence nav options) (normalizedOf patterns) = true ->
  exists before firstSeq after,
    normalizedOf patterns = (before ++ firstSeq :: after)%list /\
    Forall (fun p => parsesAsSequence nav options p = false) before /\
    parsesAsSequence nav options firstSeq = true /\
    let seq := sequence (parsePattern nav firstSeq options) in
    let h := SequenceHandler seq (timeoutOf patterns) options in
    createHotkeyHandler nav patterns options = Ok h /\
    (forall patterns',
       timeoutOf patterns' = timeoutOf patterns ->
       List.filter (parsesAsSequence nav options) (normalizedOf patterns')
       = List.filter (parsesAsSequence nav options) (normalizedOf patterns) ->
       createHotkeyHandler nav patterns' options = Ok h) /\
    (forall event w w',
       invoke nav h event w = Ok w' -> calls w' <> calls w ->
       calls w' = (calls w ++ [event])%list /\ index w + 1 = length seq /\
       exists last, seq !! index w = Some last /\
         stepMatches event last options = Ok true).
Proof.
  intros Hex.
  destruct (createHotkeyHandler_sequence nav patterns options Hex)
    as (before & firstSeq & after & Hsplit & Hbefore & Hfirst & Hcreate).
  exists before, firstSeq, after. repeat split; try assumption.
  - intros patterns' Ht Hf. rewrite <- Hcreate.
    now apply createHotkeyHandler_filter.
  - simpl in H. apply sequenceHandler_calls in H as [E | (E & _)]; [congruence | exact E].
  - simpl in H. apply sequenceHandler_calls in H as [E | (_ & E & _)]; [congruence | exact E].
  - simpl in H. apply sequenceHandler_calls in H as [E | (_ & _ & E)]; [congruence | exact E].
Qed.

(** A list mixing ["k"] with two sequences: ["g g"] is tracked, and a
    [k] press, which matches ["k"], does not call the handler. *)
Lemma first_sequence_tracked_witness :
  createHotkeyHandler None (PList ["k"; "g g"; "g h"]) None
  = Ok (SequenceHandler [stepG; stepG] 0 None)
  /\ createHotkeyHandler None (PList ["g g"; "x"; "g h"]) None
  = Ok (SequenceHandler [stepG; stepG] 0 None)
  /\ matchHotkey None (keyEvent "k") "k" None = Ok true
  /\ calls (deliver None true (SequenceHandler [stepG; stepG] 0 None) initialWorld
                    (0%Z, keyEvent "k")) = [].
Proof.
  destruct (first_sequence_tracked None (PList ["k"; "g g"; "g h"]) None eq_refl)
    as (before & firstSeq & after & Hsplit & Hbefore & Hfirst & Hcreate & Hsame & _).
  assert (Hh : SequenceHandler (sequence (parsePattern None firstSeq None))
                               (timeoutOf (PList ["k"; "g g"; "g h"])) None
               = SequenceHandler [stepG; stepG] 0 None).
  { assert (E : createHotkeyHandler None (PList ["k"; "g g"; "g h"]) None
                = Ok (SequenceHandler [stepG; stepG] 0 None))
      by (vm_compute; reflexivity).
    rewrite E in Hcreate. congruence. }
  split; [|split; [|split]].
  - rewrite <- Hh. exact Hcreate.
  - rewrite <- Hh. apply Hsame; vm_compute; reflexivity.
  - vm_compute. reflexivity.
  - vm_compute. reflexivity.
Defined.

(** ** Formatter *)

Lemma stepTokens_labels us platform step tokens :
  stepTokens us platform step = Ok tokens ->
  exists keyLabel,
    (keyTruthy (step_key step) = true -> toKeyLabel us (step_key step) = Ok keyLabel) /\
    tokens = stepLabels us platform step keyLabel.
Proof.
  unfold stepTokens, stepLabels.
  destruct (keyTruthy (step_key step)) eqn:Hk.
  - destruct (toKeyLabel us (step_key step)) as [label|err]; simpl; [|discriminate].
    intros [= <-]. exists label. split; [reflexivity|].
    destruct (step_ctrl step), (step_meta step), (step_shift step), (step_alt step);
      reflexivity.
  - intros [= <-]. exists EmptyString. split; [discriminate|].
    destruct (step_ctrl step), (step_meta step), (step_shift step), (step_alt step);
      reflexivity.
Qed.

Lemma mapResult_steps us platform sep steps parts :
  mapResult (fun p => t ← stepTokens us platform p; Ok (join sep t)) steps = Ok parts ->
  exists keyLabels,
    Forall2 (fun step keyLabel =>
               keyTruthy (step_key step) = true ->
               toKeyLabel us (step_key step) = Ok keyLabel) steps keyLabels /\
    parts = zip_with (fun step keyLabel => join sep (stepLabels us platform step keyLabel))
                     steps keyLabels.
Proof.
  revert parts. induction steps as [|step steps IH]; simpl; intros parts.
  - intros [= <-]. exists []. split; constructor.
  - destruct (stepTokens us platform step) as [tokens|err] eqn:Ht; simpl; [|discriminate].
    destruct (mapResult _ steps) as [ys|err]; simpl; [|discriminate].
    intros [= <-].
    destruct (stepTokens_labels _ _ _ _ Ht) as (keyLabel & Hk & ->).
    destruct (IH ys eq_refl) as (keyLabels & HF & ->).
    exists (keyLabel :: keyLabels). split; [constructor; assumption | reflexivity].
Qed.

(** C9. Whenever [formatPattern] returns, its result is made of one group
    per step of the parsed pattern, each the step's labels in the order
    ctrl, meta, shift, alt, key with the false flags left out and joined
    by the separator, the groups joined by [" then "] (a space with
    symbols).  In word style ["Control+k"] gives ["Ctrl + K"] and ["g g"]
    gives ["G then G"]. *)
Theorem formatPattern_label_order nav :
  (forall pattern options out,
     formatPattern nav pattern options = Ok out ->
     let platform := fmtPlatform nav options in
     let us := fmtUseSymbols nav options in
     let sep := fmtSeparator nav options in
     let parsed := parsePattern nav pattern (Some (mkMatchOptions (Some platform) None None)) in
     exists keyLabels,
       Forall2 (fun step keyLabel =>
                  keyTruthy (step_key step) = true ->
                  toKeyLabel us (step_key step) = Ok keyLabel)
               (sequence parsed) keyLabels /\
       out = join (if us then " " else " then ")
                  (zip_with (fun step keyLabel =>
                               join sep (stepLabels us platform step keyLabel))
                            (sequence parsed) keyLabels)) /\
  (forall options,
     fmtUseSymbols nav options = false ->
     options ≫= separator = None ->
     formatPattern nav "Control+k" options = Ok "Ctrl + K" /\
     formatPattern nav "g g" options = Ok "G then G").
Proof.
  split.
  - intros pattern options out Hfmt platform us sep parsed.
    unfold formatPattern in Hfmt.
    fold platform us sep parsed in Hfmt.
    destruct (parsePattern_cases nav pattern (Some (mkMatchOptions (Some platform) None None)))
      as [[Hs Hp] | (Hs & _ & Hp)]; fold parsed in Hs, Hp; rewrite Hs in Hfmt; simpl in Hfmt.
    + destruct (stepTokens us platform _) as [tokens|err] eqn:Ht; simpl in Hfmt;
        [|discriminate].
      injection Hfmt as <-.
      rewrite Hp in Ht |- *. simpl in Ht |- *.
      set (single := parseSingle nav pattern _) in *.
      replace (mkStep (step_key single) (step_ctrl single) (step_meta single)
                      (step_shift single) (step_alt single)) with single in Ht
        by now destruct single.
      destruct (stepTokens_labels _ _ _ _ Ht) as (keyLabel & Hk & ->).
      exists [keyLabel]. split; [repeat constructor; exact Hk | reflexivity].
    + destruct (mapResult _ (sequence parsed)) as [parts|err] eqn:Hparts; simpl in Hfmt;
        [|discriminate].
      injection Hfmt as <-.
      destruct (mapResult_steps _ _ _ _ _ Hparts) as (keyLabels & HF & ->).
      exists keyLabels. split; [exact HF | reflexivity].
  - intros options Hus Hsep. unfold formatPattern, fmtSeparator.
    rewrite Hus, Hsep. generalize (fmtPlatform nav options) as platform.
    intros []; split; vm_compute; reflexivity.
Qed.

(** The two word-style examples, and a symbol-style pattern on a mac. *)
Lemma formatPattern_label_order_witness :
  formatPattern None "Control+k" None = Ok "Ctrl + K"
  /\ formatPattern None "g g" None = Ok "G then G"
  /\ exists keyLabels,
       formatPattern (Some "MacIntel") "Meta+Shift+p" None
       = Ok (join " "
               (zip_with (fun step keyLabel => join EmptyString (stepLabels true mac step keyLabel))
                  [mkStep (Some (KStr "p")) false true true false] keyLabels)).
Proof.
  split; [|split].
  - apply (proj2 (formatPattern_label_order None) None); reflexivity.
  - apply (proj2 (formatPattern_label_order None) None); reflexivity.
  - destruct (proj1 (formatPattern_label_order (Some "MacIntel"))
                "Meta+Shift+p" None "⌘⇧P" eq_refl) as (keyLabels & _ & E).
    exists keyLabels. etransitivity; [|exact (f_equal Ok E)]. vm_compute. reflexivity.
Defined.

(** * Further properties *)

(** ** Tokens of a step *)

Lemma last_cons_match {A} (x : A) l :
  last (x :: l) = match last l with Some y => Some y | None => Some x end.
Proof.
  destruct l as [|y l]; [reflexivity|].
  change (last (x :: y :: l)) with (last (y :: l)).
  destruct (last (y :: l)) eqn:E; [reflexivity|].
  now apply last_None in E.
Qed.

Lemma fold_parseToken platform cs treatMod tokens acc :
  fold_left (parseToken platform cs treatMod) tokens acc
  = mkStep
      (match last (List.filter (isKeyToken treatMod) tokens) with
       | Some token => Some (normalizeKeyName token cs)
       | None => step_key acc
       end)
      (step_ctrl acc || existsb (setsCtrl platform treatMod) tokens)
      (step_meta acc || existsb (setsMeta platform treatMod) tokens)
      (step_shift acc || existsb setsShift tokens)
      (step_alt acc || existsb setsAlt tokens).
Proof.
  revert acc. induction tokens as [|token tokens IH]; intros [k c m s a].
  - simpl. now rewrite !orb_false_r.
  - cbn [fold_left]. rewrite IH. clear IH.
    cbn [existsb List.filter].
    unfold parseToken, isKeyToken, setsCtrl, setsMeta, setsShift, setsAlt, aliasOf.
    destruct (modifierAliases_get (toLowerCase token)) as [[]|]; simpl;
      try (destruct treatMod; simpl);
      try (destruct (decide (platform = mac)) as [E|E];
           [rewrite (bool_decide_eq_true_2 _ E) | rewrite (bool_decide_eq_false_2 _ E)];
           simpl);
      rewrite ?last_cons_match, ?orb_true_r, ?orb_false_r, ?orb_true_l;
      try (destruct (last (List.filter _ tokens)); reflexivity);
      try reflexivity.
    all: idtac.
Qed.

Lemma existsb_Permutation {A} (f : A -> bool) l l' :
  l ≡ₚ l' -> existsb f l = existsb f l'.
Proof.
  induction 1 as [|x l l' _ IH|x y l|l l' l'' _ IH1 _ IH2]; simpl.
  - reflexivity.
  - now rewrite IH.
  - destruct (f x), (f y); reflexivity.
  - now rewrite IH1.
Qed.

(** X1. The step parsed from a pattern is determined by its tokens: a
    modifier flag is set exactly when some token sets it, so the order and
    repetition of modifier tokens do not matter, and the key is the
    normalized last key token, null when there is none. *)
Theorem parseSingle_tokens nav pattern options :
  let tokens := tokenize "+" pattern in
  let platform := optPlatform nav options in
  let treatMod := optTreatMod options in
  parseSingle nav pattern options
  = mkStep
      ((fun token => normalizeKeyName token (optCaseSensitive options))
         <$> last (List.filter (isKeyToken treatMod) tokens))
      (existsb (setsCtrl platform treatMod) tokens)
      (existsb (setsMeta platform treatMod) tokens)
      (existsb setsShift tokens)
      (existsb setsAlt tokens)
  /\ forall pattern',
       tokenize "+" pattern' ≡ₚ tokens ->
       let step := parseSingle nav pattern options in
       let step' := parseSingle nav pattern' options in
       step_ctrl step' = step_ctrl step /\ step_meta step' = step_meta step /\
       step_shift step' = step_shift step /\ step_alt step' = step_alt step.
Proof.
  intros tokens platform treatMod.
  assert (Hfold : forall p, parseSingle nav p options
    = mkStep
      ((fun token => normalizeKeyName token (optCaseSensitive options))
         <$> last (List.filter (isKeyToken treatMod) (tokenize "+" p)))
      (existsb (setsCtrl platform treatMod) (tokenize "+" p))
      (existsb (setsMeta platform treatMod) (tokenize "+" p))
      (existsb setsShift (tokenize "+" p))
      (existsb setsAlt (tokenize "+" p))).
  { intros p. unfold parseSingle. rewrite fold_parseToken. simpl.
    now destruct (last _). }
  split; [apply Hfold|].
  intros pattern' Hperm step step'. subst step step'.
  rewrite (Hfold pattern), (Hfold pattern'). simpl. fold tokens.
  now rewrite !(existsb_Permutation _ _ _ Hperm).
Qed.

Lemma parseSingle_tokens_witness :
  let step := parseSingle None "Control+Shift+k" None in
  let step' := parseSingle None "Shift+Control+k" None in
  step_ctrl step' = step_ctrl step /\ step_meta step' = step_meta step /\
  step_shift step' = step_shift step /\ step_alt step' = step_alt step.
Proof.
  apply (proj2 (parseSingle_tokens None "Control+Shift+k" None) "Shift+Control+k").
  vm_compute. apply perm_swap.
Defined.

(** ** Splitting and blanks *)

Lemma split_app sep a b :
  split sep (a ++ String sep b) = (split sep a ++ split sep b)%list.
Proof.
  induction a as [|c r IH]; simpl.
  - now rewrite Ascii.eqb_refl.
  - destruct (Ascii.eqb c sep); [now rewrite IH|].
    rewrite IH. pose proof (split_nonempty sep r) as Hne.
    destruct (split sep r) as [|hd tl]; [congruence | reflexivity].
Qed.

Lemma split_without_sep sep s :
  forallChars (fun c => negb (Ascii.eqb c sep)) s = true -> split sep s = [s].
Proof.
  induction s as [|c r IH]; simpl; [reflexivity|]. intros H.
  apply andb_true_iff in H as [Hc Hr].
  apply negb_true_iff in Hc. rewrite Hc, (IH Hr). reflexivity.
Qed.

Lemma forallChars_split P sep s :
  P sep = true ->
  forallChars P s = forallb (forallChars P) (split sep s).
Proof.
  intros Hsep. induction s as [|c r IH]; simpl; [reflexivity|].
  destruct (Ascii.eqb_spec c sep) as [->|Hne].
  - simpl. now rewrite Hsep, IH.
  - rewrite IH. pose proof (split_nonempty sep r) as Hn.
    destruct (split sep r) as [|hd tl]; [congruence|]. simpl.
    now rewrite andb_assoc.
Qed.

Lemma trimEnd_empty s : trimEnd s = EmptyString -> forallChars isWhiteSpace s = true.
Proof.
  induction s as [|c r IH]; simpl; [reflexivity|].
  destruct (trimEnd r) as [|c' r']; [|discriminate].
  destruct (isWhiteSpace c); [|discriminate]. intros _. now apply IH.
Qed.

Lemma trimStart_blank s :
  forallChars isWhiteSpace (trimStart s) = true -> forallChars isWhiteSpace s = true.
Proof.
  induction s as [|c r IH]; simpl; [reflexivity|].
  destruct (isWhiteSpace c) eqn:Hc; simpl.
  - exact IH.
  - rewrite Hc. discriminate.
Qed.

Lemma trim_empty_iff s :
  trim s = EmptyString <-> forallChars isWhiteSpace s = true.
Proof.
  split; [|apply trim_blank].
  unfold trim. intros H. now apply trimStart_blank, trimEnd_empty.
Qed.

Lemma truthy_trim s : truthy (trim s) = nonBlank s.
Proof.
  unfold nonBlank. destruct (forallChars isWhiteSpace s) eqn:E.
  - now rewrite (proj2 (trim_empty_iff s) E).
  - destruct (trim s) eqn:Et; [|reflexivity].
    apply trim_empty_iff in Et. congruence.
Qed.

Lemma tokenize_app sep a b :
  tokenize sep (a ++ String sep b) = (tokenize sep a ++ tokenize sep b)%list.
Proof. unfold tokenize. now rewrite split_app, List.map_app, List.filter_app. Qed.

Lemma tokenize_space_nonBlank a :
  nonBlank a = true -> 1 <= length (tokenize " " a).
Proof.
  unfold nonBlank, tokenize. rewrite (forallChars_split _ " "%char) by reflexivity.
  induction (split " " a) as [|piece pieces IH]; simpl; [discriminate|].
  rewrite truthy_trim. unfold nonBlank.
  destruct (forallChars isWhiteSpace piece); simpl; [exact IH | lia].
Qed.



(** X3. A pattern without a space character is never a sequence: it has
    the single step [parseSingle] gives, repeated at the top level. *)
Theorem spaceless_pattern_is_simple nav pattern options :
  forallChars notSpace pattern = true ->
  let parsed := parsePattern nav pattern options in
  let single := parseSingle nav pattern options in
  isSequence parsed = false /\ sequence parsed = [single] /\
  key parsed = step_key single /\ ctrl parsed = step_ctrl single /\
  meta parsed = step_meta single /\ shift parsed = step_shift single /\
  alt parsed = step_alt single.
Proof.
  intros H parsed single. subst parsed single.
  assert (Hlen : length (tokenize " " pattern) <= 1).
  { unfold tokenize. rewrite (split_without_sep " "%char) by exact H.
    simpl. destruct (truthy (trim pattern)); simpl; lia. }
  destruct (parsePattern_cases nav pattern options) as [[_ ->] | (_ & Hlen' & _)];
    [|lia].
  repeat split.
Qed.

Lemma spaceless_pattern_is_simple_witness :
  isSequence (parsePattern None "Control+Shift+k" None) = false.
Proof.
  apply (spaceless_pattern_is_simple None "Control+Shift+k" None). reflexivity.
Defined.

(** ** Keys *)

Lemma specialKeyMap_get_string name v :
  specialKeyMap !! name = Some v -> specialKeyMap_get name = Some (KStr v).
Proof. intros H. unfold specialKeyMap_get. now rewrite H. Qed.

Lemma specialKeyMap_constructor : specialKeyMap !! "constructor" = None.
Proof. vm_compute. reflexivity. Qed.

Lemma specialKeyMap_proto : specialKeyMap !! "__proto__" = None.
Proof. vm_compute. reflexivity. Qed.

(** X4. [normalizeKeyName] returns a string for every token except the
    two whose trimmed lowercase form names an inherited property of
    [specialKeyMap]: it returns the function [Object] exactly for
    [constructor] and [Object.prototype] exactly for [__proto__], in any
    letter case and in either case mode. *)
Theorem normalizeKeyName_inherited raw caseSensitive :
  (normalizeKeyName raw caseSensitive = KObjectFunction
     <-> toLowerCase (trim raw) = "constructor") /\
  (normalizeKeyName raw caseSensitive = KObjectPrototype
     <-> toLowerCase (trim raw) = "__proto__") /\
  (toLowerCase (trim raw) <> "constructor" ->
   toLowerCase (trim raw) <> "__proto__" ->
   exists s, normalizeKeyName raw caseSensitive = KStr s).
Proof.
  unfold normalizeKeyName, specialKeyMap_get.
  destruct (specialKeyMap !! toLowerCase (trim raw)) as [v|] eqn:Hv.
  - assert (toLowerCase (trim raw) <> "constructor")
      by (intros E; rewrite E, specialKeyMap_constructor in Hv; discriminate).
    assert (toLowerCase (trim raw) <> "__proto__")
      by (intros E; rewrite E, specialKeyMap_proto in Hv; discriminate).
    repeat split; try discriminate; try contradiction. eauto.
  - destruct (String.eqb_spec (toLowerCase (trim raw)) "constructor") as [E|E].
    + rewrite E. repeat split; try discriminate; try contradiction.
    + destruct (String.eqb_spec (toLowerCase (trim raw)) "__proto__") as [E'|E'].
      * rewrite E'. repeat split; try discriminate; try contradiction.
      * repeat split; try contradiction;
          try (destruct (Nat.eqb _ 1); discriminate).
        intros _ _. destruct (Nat.eqb _ 1); eauto.
Qed.

Lemma normalizeKeyName_inherited_witness :
  normalizeKeyName " Constructor " false = KObjectFunction
  /\ exists s, normalizeKeyName "esc" true = KStr s.
Proof.
  split.
  - apply (proj1 (normalizeKeyName_inherited " Constructor " false)). reflexivity.
  - apply (proj2 (proj2 (normalizeKeyName_inherited "esc" true)));
      vm_compute; discriminate.
Defined.

(** ** Exceptions of the matcher *)

Lemma keyEquals_throws comparable k cs :
  keyEquals comparable k cs = Throw TypeError <-> k = KObjectFunction /\ cs = false.
Proof.
  destruct k as [s| |], cs; simpl; split; try discriminate; try tauto;
    intros [? ?]; discriminate.
Qed.

Lemma matchStep_throws event step cs :
  matchStep event step cs = Throw TypeError <->
  modifiersEqual event step = true /\ step_key step = Some KObjectFunction /\ cs = false.
Proof.
  destruct (modifiersEqual event step) eqn:E.
  - rewrite (matchStep_modifiers_equal _ _ _ E).
    destruct (step_key step) as [k|].
    + rewrite keyEquals_throws. split.
      * intros [-> ->]. auto.
      * intros (_ & [= ->] & ->). auto.
    + split; [discriminate | intros (_ & ? & _); discriminate].
  - rewrite (matchStep_modifiers_differ _ _ _ E).
    split; [discriminate | intros (? & _); discriminate].
Qed.

(** X5. [matchHotkey] throws a [TypeError] exactly when the pattern is not
    a sequence, its key is the inherited function [Object], the comparison
    is not case-sensitive and the modifiers of the event equal those of the
    pattern; in every other case it returns a boolean. *)
Theorem matchHotkey_throws nav event pattern options :
  let parsed := parsePattern nav pattern options in
  (matchHotkey nav event pattern options = Throw TypeError <->
     isSequence parsed = false /\ key parsed = Some KObjectFunction /\
     optCaseSensitive options = false /\
     ctrl parsed = ctrlKey event /\ meta parsed = metaKey event /\
     shift parsed = shiftKey event /\ alt parsed = altKey event) /\
  (matchHotkey nav event pattern options <> Throw TypeError ->
   exists b, matchHotkey nav event pattern options = Ok b).
Proof.
  intros parsed. subst parsed. split.
  - unfold matchHotkey.
    destruct (isSequence (parsePattern nav pattern options)).
    + split; [discriminate | intros [? _]; discriminate].
    + rewrite matchStep_throws, modifiersEqual_true. simpl. tauto.
  - destruct (matchHotkey nav event pattern options) as [b|[]]; [eauto | congruence].
Qed.

Lemma matchHotkey_throws_witness :
  matchHotkey None (keyEvent "a") "constructor" None = Throw TypeError
  /\ exists b, matchHotkey None (keyEvent "a") "Escape" None = Ok b.
Proof.
  split.
  - apply (proj1 (matchHotkey_throws None (keyEvent "a") "constructor" None)).
    vm_compute. repeat split.
  - apply (proj2 (matchHotkey_throws None (keyEvent "a") "Escape" None)).
    vm_compute. discriminate.
Defined.

(** X6. The comparison written in the sequence closure and the one in
    [matchHotkey] give the same answer whenever the closure's returns.  The
    closure evaluates the key even when the modifiers differ, so it throws
    for every event on a step whose key is the inherited function [Object]
    (unless case-sensitive), where [matchHotkey] throws only when the
    modifiers are equal. *)
Theorem closure_comparison_agrees event step options :
  let cs := optCaseSensitive options in
  (forall b, stepMatches event step options = Ok b -> matchStep event step cs = Ok b) /\
  (stepMatches event step options = Throw TypeError <->
     step_key step = Some KObjectFunction /\ cs = false) /\
  (matchStep event step cs = Throw TypeError <->
     modifiersEqual event step = true /\
     step_key step = Some KObjectFunction /\ cs = false).
Proof.
  intros cs. subst cs. split; [|split].
  - intros b. apply stepMatches_matchStep.
  - unfold stepMatches. destruct (step_key step) as [k|]; simpl.
    + destruct (keyEquals _ k _) as [b|[]] eqn:Hk; simpl.
      * split; [discriminate|]. intros [[= ->] Hcs].
        pose proof (proj2 (keyEquals_throws
          (eventKeyComparable event (optCaseSensitive options)) KObjectFunction
          (optCaseSensitive options)) (conj eq_refl Hcs)). congruence.
      * apply keyEquals_throws in Hk as [-> ->]. tauto.
    + split; [discriminate | intros [? _]; discriminate].
  - apply matchStep_throws.
Qed.

Lemma closure_comparison_agrees_witness :
  matchStep (keyEvent "g") stepG false = Ok true.
Proof.
  apply (proj1 (closure_comparison_agrees (keyEvent "g") stepG None) true).
  reflexivity.
Defined.

(** ** Lists of patterns *)

Lemma matchAnyList_true nav event items options :
  matchAnyList nav event items options = Ok true <->
  exists before p after,
    items = (before ++ p :: after)%list /\
    Forall (fun q => matchHotkey nav event q options = Ok false) before /\
    matchHotkey nav event p options = Ok true.
Proof.
  induction items as [|q items IH]; simpl.
  - split; [discriminate|]. intros (before & p & after & E & _).
    destruct before; discriminate.
  - destruct (matchHotkey nav event q options) as [[|]|err] eqn:Hq; simpl.
    + split; [|reflexivity]. intros _. exists [], q, items. repeat split; auto.
    + rewrite IH. split.
      * intros (before & p & after & -> & Hb & Hp).
        exists (q :: before), p, after. repeat split; auto.
      * intros (before & p & after & E & Hb & Hp).
        destruct before as [|q' before]; simpl in E; injection E as -> ->.
        -- congruence.
        -- inversion Hb; subst. exists before, p, after. repeat split; auto.
    + split; [discriminate|].
      intros (before & p & after & E & Hb & Hp).
      destruct before as [|q' before]; simpl in E; injection E as -> ->.
      * congruence.
      * inversion Hb; subst. congruence.
Qed.

Lemma matchAnyList_false nav event items options :
  matchAnyList nav event items options = Ok false <->
  Forall (fun q => matchHotkey nav event q options = Ok false) items.
Proof.
  induction items as [|q items IH]; simpl.
  - split; [constructor | reflexivity].
  - destruct (matchHotkey nav event q options) as [[|]|err] eqn:Hq; simpl.
    + split; [discriminate|]. intros H. inversion H; subst. congruence.
    + rewrite IH. split; [now constructor | now inversion 1].
    + split; [discriminate|]. intros H. inversion H; subst. congruence.
Qed.

Lemma matchAnyList_skip_sequences nav event items options :
  matchAnyList nav event items options
  = matchAnyList nav event
      (List.filter (fun p => negb (parsesAsSequence nav options p)) items) options.
Proof.
  induction items as [|q items IH]; simpl; [reflexivity|].
  unfold parsesAsSequence at 1.
  destruct (isSequence (parsePattern nav q options)) eqn:Hs; simpl.
  - unfold matchHotkey at 1. rewrite Hs. simpl. exact IH.
  - now rewrite IH.
Qed.

(** X7. [matchAnyHotkey] is true exactly when some pattern of the list
    matches and every pattern before it returned false, so a pattern that
    would throw is not reached after a match; it is false exactly when
    every pattern returns false; and the patterns that parse as sequences
    can be removed from the list without changing the result. *)
Theorem matchAnyHotkey_first_match nav event patterns options :
  (matchAnyHotkey nav event patterns options = Ok true <->
     exists before p after,
       asList patterns = (before ++ p :: after)%list /\
       Forall (fun q => matchHotkey nav event q options = Ok false) before /\
       matchHotkey nav event p options = Ok true) /\
  (matchAnyHotkey nav event patterns options = Ok false <->
     Forall (fun q => matchHotkey nav event q options = Ok false) (asList patterns)) /\
  matchAnyHotkey nav event patterns options
  = matchAnyHotkey nav event
      (inr (List.filter (fun p => negb (parsesAsSequence nav options p))
                        (asList patterns))) options.
Proof.
  unfold matchAnyHotkey. split; [apply matchAnyList_true|].
  split; [apply matchAnyList_false|]. apply matchAnyList_skip_sequences.
Qed.

Lemma matchAnyHotkey_first_match_witness :
  matchAnyHotkey None (keyEvent "k") (inr ["g g"; "k"; "constructor"]) None = Ok true.
Proof.
  apply (proj1 (matchAnyHotkey_first_match None (keyEvent "k")
                  (inr ["g g"; "k"; "constructor"]) None)).
  exists ["g g"], "k", ["constructor"].
  split; [reflexivity|]. split; [|vm_compute; reflexivity].
  constructor; [vm_compute; reflexivity | constructor].
Defined.

(** ** One-character patterns *)

Lemma lowerChar_idem c : lowerChar (lowerChar c) = lowerChar c.
Proof. destruct c as [[] [] [] [] [] [] [] []]; reflexivity. Qed.

Lemma modifierAliases_one_char c : modifierAliases_get (String c EmptyString) = None.
Proof.
  unfold modifierAliases_get, modifierAliases.
  apply not_elem_of_list_to_map_1. cbn [fmap list_fmap fst].
  intros H. repeat (apply elem_of_cons in H as [H|H]; [discriminate|]).
  now apply elem_of_nil in H.
Qed.

Lemma specialKeyMap_one_char c : specialKeyMap_get (String c EmptyString) = None.
Proof.
  unfold specialKeyMap_get.
  assert (H : specialKeyMap !! String c EmptyString = None).
  { unfold specialKeyMap. apply not_elem_of_list_to_map_1. cbn [fmap list_fmap fst].
    intros H. repeat (apply elem_of_cons in H as [H|H]; [discriminate|]).
    now apply elem_of_nil in H. }
  rewrite H. simpl. destruct (Ascii.eqb c "c"); destruct (Ascii.eqb c "_"); reflexivity.
Qed.

Lemma trim_one_char c :
  isWhiteSpace c = false -> trim (String c EmptyString) = String c EmptyString.
Proof. intros H. unfold trim. simpl. rewrite H. simpl. now rewrite H. Qed.

Lemma tokenize_one_char sep c :
  isWhiteSpace c = false -> Ascii.eqb c sep = false ->
  tokenize sep (String c EmptyString) = [String c EmptyString].
Proof.
  intros Hws Hsep. unfold tokenize. simpl. rewrite Hsep. simpl.
  now rewrite trim_one_char.
Qed.

Lemma parsePattern_one_char nav c options :
  isSeparator c = false ->
  parsePattern nav (String c EmptyString) options
  = let k := Some (KStr (String (if optCaseSensitive options then c else lowerChar c)
                                EmptyString)) in
    mkParsed k false false false false false [mkStep k false false false false].
Proof.
  intros Hsep. unfold isSeparator in Hsep. apply orb_false_iff in Hsep as [Hplus Hws].
  assert (Hspace : Ascii.eqb c " " = false).
  { destruct (Ascii.eqb_spec c " ") as [->|]; [discriminate | reflexivity]. }
  rewrite parsePattern_one_token by (apply tokenize_one_char; assumption).
  unfold parseToken. cbn [toLowerCase mapChars emptyStep].
  rewrite modifierAliases_one_char.
  unfold normalizeKeyName. rewrite (trim_one_char _ Hws).
  cbn [toLowerCase mapChars]. rewrite specialKeyMap_one_char. simpl.
  now destruct (optCaseSensitive options).
Qed.



(** ** What [createHotkeyHandler] returns *)



(** ** The simple closure *)

Lemma simpleHandler_world nav normalized options event w :
  simpleHandler nav normalized options event w
  = match matchAnyHotkey nav event (inr normalized) (Some options) with
    | Ok true => Ok (callHandler event w)
    | Ok false => Ok w
    | Throw err => Throw err
    end.
Proof.
  unfold simpleHandler.
  destruct (matchAnyHotkey nav event (inr normalized) (Some options)) as [[|]|err];
    reflexivity.
Qed.

Lemma deliver_simple nav tie normalized options w gap event :
  timers w = ∅ ->
  deliver nav tie (SimpleHandler normalized options) w (gap, event)
  = mkWorld (now w + Z.max 0 gap)%Z ∅ (nextHandle w) (index w) (timer w)
            (calls w ++ (if triggers nav normalized options event then [event] else [])).
Proof.
  intros Ht. unfold deliver. cbn [fst snd invoke].
  rewrite runDueTimers_empty by (destruct w; exact Ht).
  rewrite simpleHandler_world. unfold triggers.
  destruct (matchAnyHotkey nav event (inr normalized) (Some options)) as [[|]|err];
    destruct w; simpl in *; subst; rewrite ?app_nil_r; reflexivity.
Qed.

Lemma run_cons nav tie h timed rest w :
  run nav tie h (timed :: rest) w = run nav tie h rest (deliver nav tie h w timed).
Proof. reflexivity. Qed.

Lemma run_simple nav tie normalized options stream w :
  timers w = ∅ ->
  let w' := run nav tie (SimpleHandler normalized options) stream w in
  calls w' = (calls w ++ List.filter (triggers nav normalized options) (eventsOf stream))%list
  /\ timers w' = ∅ /\ index w' = index w /\ timer w' = timer w.
Proof.
  revert w. induction stream as [|[gap event] rest IH]; intros w Ht; cbv zeta.
  - cbn. rewrite app_nil_r. auto.
  - rewrite run_cons, deliver_simple by exact Ht.
    match goal with
    | |- context [run _ _ _ rest ?w1] =>
        destruct (IH w1 eq_refl) as (Hc & Hts & Hi & Hti)
    end.
    rewrite Hc, Hts, Hi, Hti. cbn [calls index timer].
    repeat split. unfold eventsOf. cbn [fmap list_fmap snd List.filter].
    destruct (triggers nav normalized options event); simpl.
    + now rewrite <- app_assoc.
    + now rewrite app_nil_r.
Qed.



(** ** Invariants of the sequence closure *)

(** X11. A registration never has more than one timer pending: in every
    reachable world the timer table is empty when [timer] is null and
    holds exactly the handle in [timer] otherwise, [index] stays inside
    the sequence, and a timer is pending exactly while [index] is
    positive. *)
Theorem one_pending_timer nav patterns options seq ms opts w :
  createHotkeyHandler nav patterns options = Ok (SequenceHandler seq ms opts) ->
  reachable nav (SequenceHandler seq ms opts) w ->
  index w < length seq /\
  (index w = 0 <-> timer w = None) /\
  size (timers w) <= 1 /\
  (timer w = None -> timers w = ∅) /\
  (forall h, timer w = Some h ->
     dom (timers w) = {[h]} /\ (h < nextHandle w)%positive).
Proof.
  intros Hcreate Hreach.
  apply createHotkeyHandler_inv in Hcreate as (_ & _ & Hlen).
  assert (Hne : seq <> []) by (destruct seq; [simpl in Hlen; lia | discriminate]).
  destruct (reachable_wellFormed _ _ _ _ _ Hne Hreach) as [[Hlt Hprog] Hinv].
  unfold timerInv in Hinv. split; [exact Hlt|]. split; [exact Hprog|].
  destruct (timer w) as [h|].
  - destruct Hinv as [[due Hts] Hh]. rewrite Hts. repeat split.
    + rewrite map_size_singleton. lia.
    + discriminate.
    + injection H as <-. now rewrite dom_singleton_L.
    + injection H as <-. exact Hh.
  - rewrite Hinv. repeat split; try discriminate. rewrite map_size_empty. lia.
Qed.

Lemma one_pending_timer_witness :
  size (timers (run None true (SequenceHandler [stepG; stepG] 600 None)
                    [(0%Z, keyEvent "g"); (700%Z, keyEvent "g")] initialWorld)) <= 1.
Proof.
  apply (one_pending_timer None (PConfig (inl "g g") None) None [stepG; stepG] 600 None).
  - vm_compute. reflexivity.
  - apply run_reachable, reach_initial.
Defined.

Lemma fireTimers_calls handles w : calls (foldr fireTimer w handles) = calls w.
Proof. induction handles as [|h handles IH]; simpl; [reflexivity | exact IH]. Qed.

Lemma runDueTimers_calls tie w : calls (runDueTimers tie w) = calls w.
Proof. apply fireTimers_calls. Qed.

Lemma arrival_calls tie gap w : calls (runDueTimers tie (advance gap w)) = calls w.
Proof. now rewrite runDueTimers_calls. Qed.

Lemma fireTimers_index handles w :
  index (foldr fireTimer w handles) = index w \/ index (foldr fireTimer w handles) = 0.
Proof. destruct handles; simpl; auto. Qed.

Lemma runDueTimers_index tie w :
  index (runDueTimers tie w) = index w \/ index (runDueTimers tie w) = 0.
Proof. apply fireTimers_index. Qed.

Lemma invoke_calls nav h event w w' :
  invoke nav h event w = Ok w' ->
  calls w' = calls w \/ calls w' = (calls w ++ [event])%list.
Proof.
  destruct h as [seq ms opts | normalized options]; simpl.
  - intros H. apply sequenceHandler_calls in H as [E | (E & _)]; auto.
  - rewrite simpleHandler_world.
    destruct (matchAnyHotkey _ _ _ _) as [[|]|err]; intros [= <-]; auto.
Qed.

Lemma deliver_calls nav tie h w timed :
  calls (deliver nav tie h w timed) = calls w \/
  calls (deliver nav tie h w timed) = (calls w ++ [timed.2])%list.
Proof.
  unfold deliver.
  destruct (invoke nav h timed.2 _) as [w2|err] eqn:Hrun.
  - apply invoke_calls in Hrun. now rewrite arrival_calls in Hrun.
  - left. apply arrival_calls.
Qed.

(** X12. Whatever the handler, and whatever the times, delivering a
    stream only appends to the log of calls: the handler is called at most
    once per event, with that event, in the order of the stream. *)
Theorem calls_follow_stream nav tie h stream w :
  exists fired,
    calls (run nav tie h stream w) = (calls w ++ fired)%list /\
    fired `sublist_of` eventsOf stream.
Proof.
  revert w. induction stream as [|timed rest IH]; intros w.
  - exists []. split; [now rewrite app_nil_r | constructor].
  - rewrite run_cons. destruct (IH (deliver nav tie h w timed)) as (fired & -> & Hsub).
    destruct (deliver_calls nav tie h w timed) as [-> | ->].
    + exists fired. split; [reflexivity|]. now apply sublist_cons.
    + exists (timed.2 :: fired). split; [now rewrite <- app_assoc|].
      now apply sublist_skip.
Qed.

Lemma sequenceHandler_index seq ms opts event w w' :
  sequenceHandler seq ms opts event w = Ok w' ->
  index w' = 0 \/
  (index w' = index w + 1 /\
   exists current, seq !! index w = Some current /\
     stepMatches event current opts = Ok true).
Proof.
  unfold sequenceHandler.
  destruct (seq !! index w) as [current|] eqn:Hcur; [|discriminate].
  destruct (stepMatches event current opts) as [[|]|err] eqn:Hm; simpl; [| |discriminate].
  - destruct (Nat.eqb_spec (index w + 1) (length seq)) as [E|E].
    + intros [= <-]. left. unfold cancelTimer; simpl. now destruct (timer w).
    + intros [= <-]. right. split; [now destruct (timer w) | eauto].
  - intros [= <-]. left. unfold cancelTimer; simpl. now destruct (timer w).
Qed.

Lemma deliver_blocked nav tie seq ms opts j bad w timed :
  seq !! j = Some bad -> step_key bad = Some KObjectFunction ->
  optCaseSensitive opts = false ->
  index w <= j ->
  let w' := deliver nav tie (SequenceHandler seq ms opts) w timed in
  index w' <= j /\ calls w' = calls w.
Proof.
  intros Hbad Hkey Hcs Hle. cbv zeta.
  assert (Hthrow : forall event, stepMatches event bad opts = Throw TypeError).
  { intros event. unfold stepMatches. rewrite Hkey, Hcs. reflexivity. }
  rewrite (surjective_pairing timed), deliver_sequence. cbv zeta.
  set (w1 := runDueTimers tie (advance timed.1 w)).
  assert (Hle1 : index w1 <= j).
  { destruct (runDueTimers_index tie (advance timed.1 w)) as [E|E];
      fold w1 in E; rewrite E; [destruct w; exact Hle | lia]. }
  assert (Hc1 : calls w1 = calls w).
  { apply arrival_calls. }
  destruct (sequenceHandler seq ms opts timed.2 w1) as [w2|err] eqn:Hrun; [|auto].
  split.
  - apply sequenceHandler_index in Hrun as [E | (E & current & Hcur & Hm)]; [lia|].
    destruct (decide (index w1 = j)) as [Ej|Ej]; [|lia].
    rewrite Ej, Hbad in Hcur. injection Hcur as <-. rewrite Hthrow in Hm. discriminate.
  - apply sequenceHandler_calls in Hrun as [E | (_ & Elast & last & Hcur & Hm)];
      [congruence|].
    pose proof (lookup_lt_Some _ _ _ Hbad) as Hj.
    assert (index w1 = j) as Ej by lia.
    rewrite Ej, Hbad in Hcur. injection Hcur as <-.
    rewrite Hthrow in Hm. discriminate.
Qed.

(** X13. A sequence with a step whose key is the inherited function
    [Object], compared without case sensitivity, can never be completed:
    the closure throws on every event that reaches that step, so for every
    stream the handler is never called and [index] never passes the
    step. *)
Theorem throwing_step_blocks nav tie seq ms opts j bad stream :
  seq !! j = Some bad -> step_key bad = Some KObjectFunction ->
  optCaseSensitive opts = false ->
  let w := run nav tie (SequenceHandler seq ms opts) stream initialWorld in
  calls w = [] /\ index w <= j.
Proof.
  intros Hbad Hkey Hcs. cbv zeta.
  assert (Hgen : forall w, index w <= j ->
    calls (run nav tie (SequenceHandler seq ms opts) stream w) = calls w /\
    index (run nav tie (SequenceHandler seq ms opts) stream w) <= j).
  { induction stream as [|timed rest IH]; intros w Hle; [auto|].
    rewrite run_cons.
    destruct (deliver_blocked nav tie seq ms opts j bad w timed Hbad Hkey Hcs Hle)
      as [Hle' Hc'].
    destruct (IH _ Hle') as [Hc Hi]. split; [congruence | exact Hi]. }
  apply (Hgen initialWorld). simpl. lia.
Qed.

Lemma throwing_step_blocks_witness :
  let w := run None true (SequenceHandler (sequence (parsePattern None "g constructor" None))
                                          600 None)
               [(0%Z, keyEvent "g"); (10%Z, keyEvent "constructor")] initialWorld in
  calls w = [] /\ index w <= 1.
Proof.
  apply (throwing_step_blocks None true _ 600 None 1
           (mkStep (Some KObjectFunction) false false false false));
    reflexivity.
Defined.

(** ** Completing a sequence *)

(** The world right after a matching step that armed the timer. *)
Lemma deliver_armed_step nav tie seq ms opts w h gap event current :
  timer w = Some h -> timers w = {[h := (now w + timerDelay ms)%Z]} ->
  (h < nextHandle w)%positive ->
  (0 <= gap < timerDelay ms)%Z ->
  seq !! index w = Some current ->
  stepMatches event current opts = Ok true ->
  deliver nav tie (SequenceHandler seq ms opts) w (gap, event)
  = if Nat.eqb (index w + 1) (length seq)
    then mkWorld (now w + Z.max 0 gap)%Z ∅ (nextHandle w) 0 None (calls w ++ [event])
    else mkWorld (now w + Z.max 0 gap)%Z
                 {[nextHandle w := (now w + Z.max 0 gap + timerDelay ms)%Z]}
                 (Pos.succ (nextHandle w)) (index w + 1) (Some (nextHandle w))
                 (calls w).
Proof.
  intros Ht Hts Hh Hgap Hcur Hm. rewrite deliver_sequence. cbv zeta.
  assert (Hinv : timerInv (advance gap w)).
  { unfold timerInv. destruct w; simpl in *. subst. split; [eauto | exact Hh]. }
  rewrite (runDueTimers_pending tie (advance gap w) h (now w + timerDelay ms)%Z);
    [|destruct w; exact Hts|apply isDue_before; destruct w; simpl in *; lia].
  destruct (Nat.eqb_spec (index w + 1) (length seq)) as [E|E].
  - rewrite (sequenceHandler_complete _ _ _ _ _ current); auto;
      destruct w; simpl in *; auto.
  - apply lookup_lt_Some in Hcur as Hlt.
    rewrite (sequenceHandler_advance _ _ _ _ _ current); auto;
      destruct w; simpl in *; auto; lia.
Qed.

Lemma run_armed nav tie seq ms opts steps :
  forall stream pre w h,
    seq = (pre ++ steps)%list -> steps <> [] -> index w = length pre ->
    timer w = Some h -> timers w = {[h := (now w + timerDelay ms)%Z]} ->
    (h < nextHandle w)%positive ->
    withinWindow (timerDelay ms) stream ->
    Forall2 (fun timed step => stepMatches timed.2 step opts = Ok true) stream steps ->
    let w' := run nav tie (SequenceHandler seq ms opts) stream w in
    calls w' = (calls w ++ option_list (last (eventsOf stream)))%list /\
    index w' = 0 /\ timer w' = None /\ timers w' = ∅.
Proof.
  induction steps as [|step steps IH]; intros stream pre w h Hseq Hne Hi Ht Hts Hh Hwin HF;
    [congruence|].
  inversion HF as [|[gap event] step' rest steps' Hm HF' E1 E2]; subst.
  inversion Hwin as [|? ? Hgap Hwin']; subst. cbv zeta. rewrite run_cons.
  assert (Hcur : (pre ++ step :: steps)%list !! index w = Some step).
  { rewrite Hi. now rewrite lookup_app_r, Nat.sub_diag by lia. }
  rewrite (deliver_armed_step nav tie _ ms opts w h gap event step); auto.
  destruct (Nat.eqb_spec (index w + 1) (length (pre ++ step :: steps)%list)) as [E|E];
    rewrite length_app in E; cbn [length] in E.
  - assert (steps = []) as -> by (destruct steps; [reflexivity | simpl in E; lia]).
    inversion HF'; subst. cbn. auto.
  - destruct steps as [|step2 steps]; [simpl in E; lia|].
    match goal with
    | |- context [run _ _ _ rest ?w1] =>
        destruct (IH rest (pre ++ [step])%list w1 (nextHandle w)) as (Hc & Hi' & Ht' & Hts')
    end; cbn [index timer timers now nextHandle calls]; auto.
    + now rewrite <- app_assoc.
    + rewrite length_app. simpl. lia.
    + apply Pos.lt_succ_diag_r.
    + rewrite Hc, Hi', Ht', Hts'. cbn [calls]. repeat split.
      f_equal. unfold eventsOf. cbn [fmap list_fmap snd].
      inversion HF'; subst. reflexivity.
Qed.

(** X14. For every sequence closure built by [createHotkeyHandler] and
    every stream whose events match the steps of the sequence one for one,
    each event after the first arriving less than the timer's delay after
    the one before it, the handler is called exactly once, with the last
    event, and the closure is back at rest: [index] is 0 and no timer is
    pending.  The delay runs from the previous step, not from the first. *)
Theorem in_order_stream_completes nav tie patterns options seq ms opts first rest :
  createHotkeyHandler nav patterns options = Ok (SequenceHandler seq ms opts) ->
  Forall2 (fun timed step => stepMatches timed.2 step opts = Ok true)
          (first :: rest) seq ->
  withinWindow (timerDelay ms) rest ->
  let w := run nav tie (SequenceHandler seq ms opts) (first :: rest) initialWorld in
  exists event, last (eventsOf (first :: rest)) = Some event /\
    calls w = [event] /\ index w = 0 /\ timer w = None /\ timers w = ∅.
Proof.
  intros Hcreate HF Hwin. cbv zeta.
  apply createHotkeyHandler_inv in Hcreate as (_ & _ & Hlen).
  destruct first as [gap0 event0].
  inversion HF as [|? step0 ? steps Hm0 HF' E1 E2]; subst.
  destruct steps as [|step1 steps]; [simpl in Hlen; lia|].
  rewrite run_cons, (deliver_sequence _ _ _ _ _ initialWorld). cbv zeta.
  rewrite runDueTimers_empty by reflexivity.
  rewrite (sequenceHandler_advance _ _ _ _ _ step0);
    [|reflexivity|reflexivity|exact Hm0|simpl; lia].
  match goal with
  | |- context [run _ _ _ rest ?w1] =>
      destruct (run_armed nav tie (step0 :: step1 :: steps) ms opts (step1 :: steps)
                  rest [step0] w1 1%positive)
        as (Hc & Hi & Ht & Hts)
  end; auto; try reflexivity; try discriminate.
  rewrite Hc, Hi, Ht, Hts. cbn [calls app].
  inversion HF' as [|timed1 ? rest' ? ? ? E1 E2]; subst.
  change (last (eventsOf ((gap0, event0) :: timed1 :: rest')))
    with (last (eventsOf (timed1 :: rest'))).
  destruct (last (eventsOf (timed1 :: rest'))) as [event|] eqn:El.
  - exists event. repeat split.
  - apply last_None in El. discriminate.
Qed.

Lemma in_order_stream_completes_witness :
  exists event,
    last (eventsOf [(0%Z, keyEvent "g"); (599%Z, keyEvent "h"); (599%Z, keyEvent "k")])
    = Some event /\
    calls (run None true (SequenceHandler (sequence (parsePattern None "g h k" None))
                                          600 None)
               [(0%Z, keyEvent "g"); (599%Z, keyEvent "h"); (599%Z, keyEvent "k")]
               initialWorld) = [event].
Proof.
  destruct (in_order_stream_completes None true (PConfig (inl "g h k") None) None
              (sequence (parsePattern None "g h k" None)) 600 None
              (0%Z, keyEvent "g") [(599%Z, keyEvent "h"); (599%Z, keyEvent "k")])
    as (event & Hl & Hc & _).
  - vm_compute. reflexivity.
  - repeat constructor.
  - repeat constructor; vm_compute; discriminate.
  - exists event. split; [exact Hl | exact Hc].
Defined.

(** ** The deadline *)

(** Whatever timer is pending is due at most one delay from now. *)
Lemma reachable_due nav seq ms opts w :
  seq <> [] -> reachable nav (SequenceHandler seq ms opts) w ->
  forall h due, timers w !! h = Some due -> (due <= now w + timerDelay ms)%Z.
Proof.
  intros Hne Hr.
  induction Hr as [|w gap Hr IH|w tie Hr IH|w event w' Hr IH Hrun].
  - intros h due Hl. simpl in Hl. now rewrite lookup_empty in Hl.
  - intros h due Hl. specialize (IH h due). destruct w; simpl in *.
    specialize (IH Hl). lia.
  - pose proof (reachable_wellFormed _ _ _ _ _ Hne Hr) as [_ Hinv].
    unfold timerInv in Hinv. destruct (timer w) as [h0|] eqn:Ht.
    + destruct Hinv as [[due0 Hts] _].
      destruct (isDue tie (now w) due0) eqn:Hd.
      * rewrite (runDueTimers_due _ _ _ _ Hts Hd). simpl.
        intros h due Hl. now rewrite lookup_empty in Hl.
      * now rewrite (runDueTimers_pending _ _ _ _ Hts Hd).
    + now rewrite runDueTimers_empty.
  - pose proof (reachable_wellFormed _ _ _ _ _ Hne Hr) as Hwf.
    destruct (wellFormed_current _ _ Hwf) as [current Hcur].
    destruct Hwf as [_ Hinv]. simpl in Hrun.
    destruct (stepMatches event current opts) as [[|]|err] eqn:Hm.
    + destruct (decide (index w + 1 = length seq)) as [Hlast|Hnot].
      * rewrite (sequenceHandler_complete _ _ _ _ _ _ Hinv Hcur Hm Hlast) in Hrun.
        injection Hrun as <-. simpl. intros h due Hl. now rewrite lookup_empty in Hl.
      * apply lookup_lt_Some in Hcur as Hlt.
        rewrite (sequenceHandler_advance _ _ _ _ _ _ Hinv Hcur Hm) in Hrun by lia.
        injection Hrun as <-. simpl. intros h due Hl.
        apply lookup_singleton_Some in Hl as [_ <-]. lia.
    + rewrite (sequenceHandler_reset _ _ _ _ _ _ Hinv Hcur Hm) in Hrun.
      injection Hrun as <-. simpl. intros h due Hl. now rewrite lookup_empty in Hl.
    + rewrite (sequenceHandler_throw _ _ _ _ _ _ _ Hcur Hm) in Hrun. discriminate.
Qed.

(** X15. An event that arrives more than the timer's delay after the
    previous one finds the closure at rest, whatever progress there was:
    the handler is not called, and the event only starts a new attempt if
    it matches the first step. *)
Theorem late_event_restarts nav tie patterns options seq ms opts w gap event :
  createHotkeyHandler nav patterns options = Ok (SequenceHandler seq ms opts) ->
  reachable nav (SequenceHandler seq ms opts) w ->
  (timerDelay ms < gap)%Z ->
  let w' := deliver nav tie (SequenceHandler seq ms opts) w (gap, event) in
  exists first, seq !! 0 = Some first /\
    calls w' = calls w /\
    index w' = match stepMatches event first opts with Ok true => 1 | _ => 0 end.
Proof.
  intros Hcreate Hreach Hgap. cbv zeta.
  apply createHotkeyHandler_inv in Hcreate as (_ & _ & Hlen).
  assert (Hne : seq <> []) by (destruct seq; [simpl in Hlen; lia | discriminate]).
  pose proof (reachable_wellFormed _ _ _ _ _ Hne Hreach) as [[_ Hprog] Hinv].
  pose proof (reachable_due _ _ _ _ _ Hne Hreach) as Hdue.
  destruct (lookup_lt_is_Some_2 seq 0) as [first Hfirst]; [lia|].
  exists first. split; [exact Hfirst|].
  rewrite deliver_sequence. cbv zeta.
  assert (Hw1 : runDueTimers tie (advance gap w)
                = mkWorld (now w + Z.max 0 gap)%Z ∅ (nextHandle w) 0 None (calls w)).
  { unfold timerInv in Hinv. destruct (timer w) as [h|] eqn:Ht.
    - destruct Hinv as [[due Hts] _].
      specialize (Hdue h due). rewrite Hts, lookup_singleton_eq in Hdue.
      specialize (Hdue eq_refl).
      rewrite (runDueTimers_due tie (advance gap w) h due).
      + reflexivity.
      + destruct w; exact Hts.
      + apply isDue_past. destruct w; simpl in *. lia.
    - rewrite runDueTimers_empty by (destruct w; exact Hinv).
      assert (index w = 0) as Hi by now apply Hprog.
      destruct w; simpl in *. now subst. }
  rewrite Hw1. clear Hw1.
  set (w1 := mkWorld _ ∅ _ 0 None _).
  destruct (stepMatches event first opts) as [[|]|err] eqn:Hm.
  - rewrite (sequenceHandler_advance _ _ _ _ w1 first);
      [|reflexivity|exact Hfirst|exact Hm|simpl; lia].
    split; reflexivity.
  - rewrite (sequenceHandler_reset _ _ _ _ w1 first);
      [|reflexivity|exact Hfirst|exact Hm].
    split; reflexivity.
  - rewrite (sequenceHandler_throw _ _ _ _ w1 first err); [|exact Hfirst|exact Hm].
    split; reflexivity.
Qed.

Lemma late_event_restarts_witness :
  let w := run None true (SequenceHandler [stepG; stepH] 600 None)
               [(0%Z, keyEvent "g")] initialWorld in
  exists first, [stepG; stepH] !! 0 = Some first /\
    calls (deliver None true (SequenceHandler [stepG; stepH] 600 None) w
                   (601%Z, keyEvent "h")) = calls w /\
    index (deliver None true (SequenceHandler [stepG; stepH] 600 None) w
                   (601%Z, keyEvent "h"))
    = match stepMatches (keyEvent "h") first None with Ok true => 1 | _ => 0 end.
Proof.
  apply (late_event_restarts None true (PConfig (inl "g h") None) None).
  - vm_compute. reflexivity.
  - apply run_reachable, reach_initial.
  - vm_compute. reflexivity.
Defined.

Example hook1 :
  hookRun (inl "k") (mkHotkeysOptions None None None None None None (Some true)) true
    [mkDispatch keydown (keyEvent "k") 5; mkDispatch keyup (keyEvent "k") 6;
     mkDispatch keydown (keyEvent "k") 7]
  = mkHookState (mkIndicator true (Some "k") (Some keydown) 2 (Some 7%Z) false)
                [keyEvent "k"; keyEvent "k"].
Proof. vm_compute. reflexivity. Qed.

(** ** The hook *)

Lemma hookRun_snoc keys o capable stream d :
  hookRun keys o capable (stream ++ [d])
  = dispatchTo keys o capable (hookRun keys o capable stream) d.
Proof. unfold hookRun. now rewrite fold_left_app. Qed.

Lemma dispatchTo_detached keys o capable st d :
  optEnabled o && capable = false -> dispatchTo keys o capable st d = st.
Proof.
  intros H. unfold dispatchTo, attachedListeners.
  destruct (optEnabled o), capable; try discriminate; reflexivity.
Qed.

Lemma dispatchTo_attached keys o st d :
  optEnabled o = true ->
  dispatchTo keys o true st d
  = let st1 := if decide (optEventType o = dispatchType d)
               then runHandlePrimary keys o d st else st in
    if optReturnState o && bool_decide (optEventType o = keydown)
         && bool_decide (dispatchType d = keyup)
    then runHandleKeyUpForDeactivation keys d st1
    else st1.
Proof.
  intros He. unfold dispatchTo, attachedListeners. rewrite He. simpl.
  destruct (optReturnState o && bool_decide (optEventType o = keydown)); simpl.
  - destruct (decide (keyup = dispatchType d)) as [E|E].
    + rewrite bool_decide_eq_true_2 by congruence. reflexivity.
    + rewrite bool_decide_eq_false_2 by congruence. reflexivity.
  - reflexivity.
Qed.

(** One dispatch, by what it is to the hook. *)
Lemma dispatchTo_spec keys o st d :
  optEnabled o = true ->
  dispatchTo keys o true st d
  = if fires keys o d then
      mkHookState (if optReturnState o
                   then updateIndicatorOnTrigger o d (indicator st)
                   else indicator st)
                  (callbackCalls st ++ [dispatchEvent d])
    else if optReturnState o && bool_decide (optEventType o = keydown)
            && deactivates keys d then
      mkHookState (mkIndicator false (Some (ev_key (dispatchEvent d))) (Some keyup)
                               (pressCount (indicator st))
                               (lastTriggeredAt (indicator st)) false)
                  (callbackCalls st)
    else st.
Proof.
  intros He. rewrite dispatchTo_attached by exact He. cbv zeta.
  unfold fires, deactivates, runHandlePrimary, runHandleKeyUpForDeactivation.
  destruct (decide (optEventType o = dispatchType d)) as [E|E].
  - rewrite (bool_decide_eq_true_2 (dispatchType d = optEventType o)) by congruence.
    cbn [andb].
    destruct (matchEvent keys o (dispatchEvent d)) eqn:Hm; cbn [negb].
    + assert (optReturnState o && bool_decide (optEventType o = keydown)
              && bool_decide (dispatchType d = keyup) = false) as ->.
      { destruct (optReturnState o); [|reflexivity]. cbn [andb].
        destruct (decide (optEventType o = keydown)) as [E'|E'].
        - rewrite (bool_decide_eq_false_2 (dispatchType d = keyup)) by congruence.
          apply andb_false_r.
        - now rewrite bool_decide_eq_false_2 by exact E'. }
      destruct (optReturnState o); destruct st; reflexivity.
    + destruct (optReturnState o && bool_decide (optEventType o = keydown));
        cbn [andb]; [|reflexivity].
      destruct (bool_decide (dispatchType d = keyup)); cbn [andb]; [|reflexivity].
      destruct (bool_decide (ev_key (dispatchEvent d) ∈ normalizedKeys keys));
        destruct st; reflexivity.
  - rewrite (bool_decide_eq_false_2 (dispatchType d = optEventType o)) by congruence.
    cbn [andb].
    destruct (optReturnState o && bool_decide (optEventType o = keydown));
      cbn [andb]; [|reflexivity].
    destruct (bool_decide (dispatchType d = keyup)); cbn [andb]; [|reflexivity].
    destruct (bool_decide (ev_key (dispatchEvent d) ∈ normalizedKeys keys));
      destruct st; reflexivity.
Qed.

(** X16. [matchEvent] of the hook asks for the key to be one of the
    registered keys, exactly as written, and for each required modifier to
    be held; unlike [matchHotkey] it accepts any further modifier, so an
    event that matches still matches with more modifiers held. *)
Theorem matchEvent_at_least keys o event :
  (matchEvent keys o event = true <->
     ev_key event ∈ asList keys /\
     (optRequireCtrl o = true -> ctrlKey event = true) /\
     (optRequireMeta o = true -> metaKey event = true) /\
     (optRequireShift o = true -> shiftKey event = true) /\
     (optRequireAlt o = true -> altKey event = true)) /\
  (forall event',
     matchEvent keys o event = true -> holdsMore event event' ->
     matchEvent keys o event' = true).
Proof.
  assert (Hchar : forall e, matchEvent keys o e = true <->
     ev_key e ∈ asList keys /\
     (optRequireCtrl o = true -> ctrlKey e = true) /\
     (optRequireMeta o = true -> metaKey e = true) /\
     (optRequireShift o = true -> shiftKey e = true) /\
     (optRequireAlt o = true -> altKey e = true)).
  { intros e. unfold matchEvent, normalizedKeys.
    destruct (decide (ev_key e ∈ asList keys)) as [Hin|Hin].
    - rewrite bool_decide_eq_true_2 by (now apply elem_of_list_to_set).
      cbn [negb].
      destruct (optRequireCtrl o), (optRequireMeta o), (optRequireShift o),
        (optRequireAlt o), (ctrlKey e), (metaKey e), (shiftKey e), (altKey e);
        simpl; split; try discriminate; try tauto; intros (_ & ? & ? & ? & ?);
        auto; try discriminate; exfalso; auto using diff_false_true;
        try (now (assert (false = true) by auto)).
    - rewrite bool_decide_eq_false_2 by (now rewrite elem_of_list_to_set).
      cbn [negb]. split; [discriminate | tauto]. }
  split; [apply Hchar|].
  intros event' Hm (Hk & Hc & Hme & Hs & Ha).
  apply Hchar in Hm as (Hin & Hrc & Hrm & Hrs & Hra).
  apply Hchar. rewrite Hk. repeat split; auto.
Qed.

Lemma matchEvent_at_least_witness :
  matchEvent (inr ["z"; "y"]) (mkHotkeysOptions None None None (Some true) None None None)
             (mkEvent "z" true true false false) = true.
Proof.
  apply (proj2 (matchEvent_at_least (inr ["z"; "y"])
                  (mkHotkeysOptions None None None (Some true) None None None)
                  (mkEvent "z" false true false false))).
  - reflexivity.
  - repeat split; auto.
Defined.



Lemma jsIncrement_iter k :
  Nat.iter k jsIncrement 0%N = N.min (N.of_nat k) 9007199254740992.
Proof.
  induction k as [|k IH]; [reflexivity|].
  rewrite Nat.iter_succ, IH. unfold jsIncrement.
  destruct (N.ltb_spec (N.min (N.of_nat k) 9007199254740992) 9007199254740992); lia.
Qed.

(** X18. When the state is returned, [pressCount] is the number of calls
    of the callback, as far as a double can count (it stays at 2^53), and
    [lastTriggeredAt] is null exactly while there has been no call; when
    the state is not returned the indicator keeps its initial value. *)
Theorem pressCount_counts_calls keys o stream :
  optEnabled o = true ->
  let st := hookRun keys o true stream in
  (optReturnState o = true ->
   pressCount (indicator st)
   = N.min (N.of_nat (length (callbackCalls st))) 9007199254740992 /\
   (lastTriggeredAt (indicator st) = None <-> callbackCalls st = [])) /\
  (optReturnState o = false -> indicator st = initialIndicator).
Proof.
  intros He. cbv zeta. split.
  - intros Hr. rewrite <- jsIncrement_iter.
    induction stream as [|d stream IH] using rev_ind; [now repeat split|].
    destruct IH as [IHc IHt].
    rewrite hookRun_snoc, dispatchTo_spec by exact He. rewrite Hr.
    destruct (fires keys o d); cbn [indicator callbackCalls andb].
    + rewrite length_app, Nat.add_comm. cbn [length Nat.add].
      rewrite Nat.iter_succ.
      cbn [updateIndicatorOnTrigger pressCount lastTriggeredAt].
      rewrite IHc. split; [reflexivity|].
      split; [discriminate|]. intros E. now apply app_eq_nil in E as [_ ?].
    + destruct (_ && deactivates keys d); cbn [indicator callbackCalls pressCount
                                                lastTriggeredAt]; auto.
  - intros Hr.
    induction stream as [|d stream IH] using rev_ind; [reflexivity|].
    rewrite hookRun_snoc, dispatchTo_spec by exact He. rewrite Hr.
    destruct (fires keys o d); cbn [indicator andb]; exact IH.
Qed.

Lemma pressCount_counts_calls_witness :
  pressCount (indicator
    (hookRun (inl "k") (mkHotkeysOptions None None None None None None (Some true)) true
       [mkDispatch keydown (keyEvent "k") 1; mkDispatch keyup (keyEvent "k") 2;
        mkDispatch keydown (keyEvent "k") 3]))
  = 2%N.
Proof.
  etransitivity.
  - apply (proj1 (pressCount_counts_calls (inl "k")
             (mkHotkeysOptions None None None None None None (Some true)) _ eq_refl)).
    reflexivity.
  - vm_compute. reflexivity.
Defined.



(** ** Exceptions of the formatter *)

Lemma stepTokens_throws us platform step :
  stepTokens us platform step = Throw TypeError <-> step_key step = Some KObjectFunction.
Proof.
  unfold stepTokens. destruct (step_key step) as [[s| |]|]; simpl.
  - destruct (truthy s) eqn:Ht; simpl; [|split; discriminate].
    destruct (String.eqb s " "); simpl; split; discriminate.
  - tauto.
  - split; discriminate.
  - split; discriminate.
Qed.

Lemma mapResult_throws {A B} (f : A -> result B) xs :
  mapResult f xs = Throw TypeError <-> exists x, x ∈ xs /\ f x = Throw TypeError.
Proof.
  induction xs as [|x xs IH]; simpl.
  - split; [discriminate|]. intros (x & Hx & _). now apply elem_of_nil in Hx.
  - destruct (f x) as [y|[]] eqn:Hfx; simpl.
    + destruct (mapResult f xs) as [ys|[]]; simpl.
      * split; [discriminate|]. intros (x' & Hx' & Hf).
        apply elem_of_cons in Hx' as [->|Hx']; [congruence|].
        destruct IH as [_ IH]. discriminate IH. eauto.
      * split; [|reflexivity]. intros _.
        destruct IH as [IH _]. destruct (IH eq_refl) as (x' & Hx' & Hf).
        exists x'. split; [now apply elem_of_cons; right | exact Hf].
    + split; [|reflexivity]. intros _. exists x. split; [apply elem_of_cons; now left|].
      exact Hfx.
Qed.

(** X20. [formatPattern] throws a [TypeError] exactly when some step of the
    parsed pattern has the inherited function [Object] as key, which has no
    [toUpperCase]; a pattern without such a step is formatted to a
    string. *)
Theorem formatPattern_throws nav pattern options :
  let parsed := parsePattern nav pattern (platformOnly (fmtPlatform nav options)) in
  (formatPattern nav pattern options = Throw TypeError <->
     exists step, step ∈ sequence parsed /\ step_key step = Some KObjectFunction) /\
  ((forall step, step ∈ sequence parsed -> step_key step <> Some KObjectFunction) ->
   exists out, formatPattern nav pattern options = Ok out).
Proof.
  intros parsed.
  assert (Hiff : formatPattern nav pattern options = Throw TypeError <->
     exists step, step ∈ sequence parsed /\ step_key step = Some KObjectFunction).
  - unfold formatPattern. fold (platformOnly (fmtPlatform nav options)). fold parsed.
    destruct (parsePattern_cases nav pattern (platformOnly (fmtPlatform nav options)))
      as [[Hs Hp] | (Hs & _ & Hp)]; fold parsed in Hs, Hp; rewrite Hs; cbn [negb].
    + rewrite Hp. cbn [key ctrl meta shift alt sequence].
      set (single := parseSingle nav pattern _).
      replace (mkStep (step_key single) (step_ctrl single) (step_meta single)
                      (step_shift single) (step_alt single)) with single
        by now destruct single.
      destruct (stepTokens _ _ single) as [tokens|[]] eqn:Ht; simpl.
      * split; [discriminate|]. intros (step & Hin & Hk).
        apply list_elem_of_singleton in Hin as ->.
        apply (proj2 (stepTokens_throws (fmtUseSymbols nav options)
                        (fmtPlatform nav options) single)) in Hk.
        rewrite Hk in Ht. discriminate.
      * split; [|reflexivity]. intros _. exists single.
        split; [now apply list_elem_of_singleton|]. eapply stepTokens_throws, Ht.
    + destruct (mapResult _ (sequence parsed)) as [parts|[]] eqn:Hm; simpl.
      * split; [discriminate|]. intros (step & Hin & Hk).
        assert (mapResult
                  (fun p => t ← stepTokens (fmtUseSymbols nav options)
                                  (fmtPlatform nav options) p;
                            Ok (join (fmtSeparator nav options) t))
                  (sequence parsed) = Throw TypeError); [|congruence].
        apply mapResult_throws. exists step. split; [exact Hin|].
        apply (proj2 (stepTokens_throws (fmtUseSymbols nav options)
                        (fmtPlatform nav options) step)) in Hk.
        now rewrite Hk.
      * split; [|reflexivity]. intros _.
        apply mapResult_throws in Hm as (step & Hin & Hf).
        exists step. split; [exact Hin|].
        apply (stepTokens_throws (fmtUseSymbols nav options) (fmtPlatform nav options)).
        destruct (stepTokens _ _ step) as [t|[]]; [discriminate | reflexivity].
  - split; [exact Hiff|]. intros Hnone.
    destruct (formatPattern nav pattern options) as [out|[]]; [eauto|].
    destruct (proj1 Hiff eq_refl) as (step & Hin & Hk). now destruct (Hnone step Hin).
Qed.

Lemma formatPattern_throws_witness :
  formatPattern None "g Constructor" None = Throw TypeError
  /\ exists out, formatPattern None "Control+__proto__" None = Ok out.
Proof.
  split.
  - apply (proj1 (formatPattern_throws None "g Constructor" None)).
    exists (mkStep (Some KObjectFunction) false false false false).
    split; [|reflexivity]. vm_compute. apply elem_of_cons. right. apply elem_of_cons. now left.
  - apply (proj2 (formatPattern_throws None "Control+__proto__" None)).
    intros step Hin. apply list_elem_of_singleton in Hin as ->. discriminate.
Defined.

(** ** Reading a formatted pattern back *)

Lemma lower_upper c : lowerChar (upperChar c) = lowerChar c.
Proof. destruct c as [[] [] [] [] [] [] [] []]; reflexivity. Qed.

Lemma upper_idem c : upperChar (upperChar c) = upperChar c.
Proof. destruct c as [[] [] [] [] [] [] [] []]; reflexivity. Qed.

Lemma tokenChar_upper c : tokenChar (upperChar c) = tokenChar c.
Proof. destruct c as [[] [] [] [] [] [] [] []]; reflexivity. Qed.

Lemma tokenChar_lower c : tokenChar (lowerChar c) = tokenChar c.
Proof. destruct c as [[] [] [] [] [] [] [] []]; reflexivity. Qed.

Lemma tokenChar_not_blank c : tokenChar c = true -> isWhiteSpace c = false.
Proof. unfold tokenChar. destruct (isWhiteSpace c); [discriminate | reflexivity]. Qed.

Lemma tokenChar_not_plus c : tokenChar c = true -> Ascii.eqb c "+" = false.
Proof.
  unfold tokenChar. destruct (Ascii.eqb c "+"); [|reflexivity].
  now rewrite andb_false_r.
Qed.

Lemma length_mapChars f s : String.length (mapChars f s) = String.length s.
Proof. induction s as [|c r IH]; simpl; [reflexivity | now rewrite IH]. Qed.

Lemma trimEnd_token s :
  forallChars tokenChar s = true -> trimEnd s = s.
Proof.
  induction s as [|c r IH]; simpl; [reflexivity|]. intros H.
  apply andb_true_iff in H as [Hc Hr]. rewrite (IH Hr).
  destruct r; [now rewrite (tokenChar_not_blank _ Hc) | reflexivity].
Qed.

Lemma trim_token s : forallChars tokenChar s = true -> trim s = s.
Proof.
  intros H. unfold trim.
  assert (trimStart s = s) as ->; [|now apply trimEnd_token].
  destruct s as [|c r]; [reflexivity|]. simpl in *.
  apply andb_true_iff in H as [Hc _]. now rewrite (tokenChar_not_blank _ Hc).
Qed.

Lemma isToken_spec s :
  isToken s = true <-> s <> EmptyString /\ forallChars tokenChar s = true.
Proof.
  unfold isToken. rewrite andb_true_iff. destruct s; simpl; split;
    intros [? ?]; split; auto; congruence.
Qed.

(** The tokens of a pattern without white space. *)
Lemma tokenize_plus_tokens pattern :
  forallChars notBlankChar pattern = true ->
  Forall (fun t => isToken t = true) (tokenize "+" pattern).
Proof.
  intros H. unfold tokenize.
  pose proof (split_forallChars _ "+"%char pattern H) as H1.
  pose proof (split_no_sep "+"%char pattern) as H2.
  revert H1 H2. generalize (split "+" pattern) as pieces.
  induction pieces as [|t ts IH]; simpl; [constructor|]. intros H1 H2.
  inversion H1 as [|? ? Ha1 Hb1]; subst. inversion H2 as [|? ? Ha2 Hb2]; subst.
  assert (Ht : forallChars tokenChar t = true).
  { eapply forallChars_impl; [|apply (forallChars_and _ _ _ Ha1 Ha2)].
    intros c Hc. exact Hc. }
  rewrite (trim_token _ Ht).
  destruct (truthy t) eqn:Etr; [|now apply IH].
  constructor; [|now apply IH]. unfold isToken. now rewrite Etr, Ht.
Qed.

Lemma parsePattern_spaceless nav pattern options :
  forallChars notSpace pattern = true ->
  parsePattern nav pattern options
  = let single := parseSingle nav pattern options in
    mkParsed (step_key single) (step_ctrl single) (step_meta single)
             (step_shift single) (step_alt single) false [single].
Proof.
  intros H.
  assert (Hlen : length (tokenize " " pattern) <= 1).
  { unfold tokenize. rewrite (split_without_sep " "%char) by exact H.
    simpl. destruct (truthy (trim pattern)); simpl; lia. }
  destruct (parsePattern_cases nav pattern options) as [[_ ->] | (_ & Hlen' & _)];
    [reflexivity | lia].
Qed.

Lemma split_join_tokens labels :
  labels <> [] -> Forall (fun t => isToken t = true) labels ->
  split "+" (join "+" labels) = labels.
Proof.
  induction labels as [|t [|t' ts] IH]; intros Hne HF; [congruence| |].
  - simpl. inversion HF as [|? ? Ht _]; subst.
    apply isToken_spec in Ht as [_ Ht]. apply split_without_sep.
    eapply forallChars_impl; [|exact Ht].
    intros c Hc. now rewrite (tokenChar_not_plus _ Hc).
  - change (join "+" (t :: t' :: ts)) with (t ++ String "+" (join "+" (t' :: ts))).
    inversion HF as [|? ? Ht HF']; subst.
    rewrite split_app, IH by (auto; discriminate).
    apply isToken_spec in Ht as [_ Ht]. rewrite split_without_sep; [reflexivity|].
    eapply forallChars_impl; [|exact Ht].
    intros c Hc. now rewrite (tokenChar_not_plus _ Hc).
Qed.

Lemma forallChars_app P a b :
  forallChars P (a ++ b) = forallChars P a && forallChars P b.
Proof. induction a as [|c r IH]; simpl; [reflexivity | now rewrite IH, andb_assoc]. Qed.

Lemma join_plus_notSpace labels :
  Forall (fun t => isToken t = true) labels ->
  forallChars notSpace (join "+" labels) = true.
Proof.
  induction labels as [|t [|t' ts] IH]; intros HF; [reflexivity| |].
  - simpl. inversion HF as [|? ? Ht _]; subst.
    apply isToken_spec in Ht as [_ Ht]. eapply forallChars_impl; [|exact Ht].
    intros c Hc. apply tokenChar_not_blank in Hc. unfold notSpace.
    destruct (Ascii.eqb_spec c " ") as [->|]; [discriminate | reflexivity].
  - change (join "+" (t :: t' :: ts)) with (t ++ String "+" (join "+" (t' :: ts))).
    inversion HF as [|? ? Ht HF']; subst.
    rewrite forallChars_app. cbn [forallChars]. rewrite (IH HF').
    apply isToken_spec in Ht as [_ Ht].
    rewrite (forallChars_impl tokenChar notSpace t); [reflexivity| |exact Ht].
    intros c Hc. apply tokenChar_not_blank in Hc. unfold notSpace.
    destruct (Ascii.eqb_spec c " ") as [->|]; [discriminate | reflexivity].
Qed.

Lemma tokenize_join_tokens labels :
  Forall (fun t => isToken t = true) labels ->
  tokenize "+" (join "+" labels) = labels.
Proof.
  intros HF. destruct labels as [|t ts]; [reflexivity|].
  unfold tokenize. rewrite split_join_tokens by (auto; discriminate).
  induction HF as [|t' ts' Ht _ IH]; [reflexivity|].
  cbn [List.map List.filter]. apply isToken_spec in Ht as [Hne Ht].
  rewrite (trim_token _ Ht). destruct t'; [congruence|]. cbn [truthy].
  now rewrite IH.
Qed.

Lemma specialKeys_labels :
  Forall (fun kv : string * string => specialLabelOk kv.2 = true) specialKeys.
Proof.
  apply List.Forall_forall. apply forallb_forall. vm_compute. reflexivity.
Qed.

Lemma special_label name v :
  specialKeyMap !! name = Some v -> specialLabelOk v = true.
Proof.
  intros H. apply elem_of_map_to_list in H.
  pose proof specialKeys_labels as HF. rewrite Forall_forall in HF.
  exact (HF (name, v) H).
Qed.

(** The label of the key of a token reads back as the same key. *)
Lemma key_label_reads_back t s :
  isToken t = true -> aliasOf t = None ->
  normalizeKeyName t false = KStr s ->
  exists label,
    keyTruthy (Some (KStr s)) = true /\
    toKeyLabel false (Some (KStr s)) = Ok label /\
    isToken label = true /\ aliasOf label = None /\
    normalizeKeyName label false = KStr s.
Proof.
  intros Htok Halias Hnorm. apply isToken_spec in Htok as [Hne Hchars].
  unfold normalizeKeyName in Hnorm. rewrite (trim_token _ Hchars) in Hnorm.
  unfold specialKeyMap_get in Hnorm.
  destruct (specialKeyMap !! toLowerCase t) as [v|] eqn:Hv.
  - injection Hnorm as <-. pose proof (special_label _ _ Hv) as Hok.
    unfold specialLabelOk in Hok.
    destruct (toKeyLabel false (Some (KStr v))) as [label|] eqn:Hl; [|discriminate].
    apply andb_true_iff in Hok as [Hok H4]. apply andb_true_iff in Hok as [Hok H3].
    apply andb_true_iff in Hok as [H1 H2].
    apply bool_decide_eq_true in H3, H4. exists label. repeat split; auto.
  - destruct (String.eqb (toLowerCase t) "constructor") eqn:E1; [discriminate|].
    destruct (String.eqb (toLowerCase t) "__proto__") eqn:E2; [discriminate|].
    destruct t as [|c r]; [congruence|]. cbn [forallChars] in Hchars.
    apply andb_true_iff in Hchars as [Hc Hr].
    destruct r as [|c' r'].
    + (* one character *)
      cbn in Hnorm. injection Hnorm as <-.
      exists (String (upperChar (lowerChar c)) EmptyString).
      assert (Hnsp : String.eqb (String (lowerChar c) EmptyString) " " = false).
      { destruct (String.eqb_spec (String (lowerChar c) EmptyString) " ") as [E|];
          [|reflexivity].
        injection E as E. pose proof (tokenChar_lower c) as Hl.
        rewrite E, Hc in Hl. discriminate. }
      split; [reflexivity|]. split.
      { unfold toKeyLabel. cbn [truthy negb]. rewrite Hnsp. reflexivity. }
      split.
      { unfold isToken. cbn. now rewrite tokenChar_upper, tokenChar_lower, Hc. }
      split; [apply modifierAliases_one_char|].
      unfold normalizeKeyName. rewrite trim_token
        by (cbn; now rewrite tokenChar_upper, tokenChar_lower, Hc).
      cbn [toLowerCase mapChars]. rewrite specialKeyMap_one_char. cbn.
      now rewrite lower_upper, lowerChar_idem.
    + (* several characters *)
      assert (Hlen : Nat.eqb (String.length (toLowerCase (String c (String c' r')))) 1
                     = false).
      { unfold toLowerCase. rewrite length_mapChars. reflexivity. }
      rewrite Hlen in Hnorm.
      assert (s = String (upperChar c) (String c' r')) as ->
        by (injection Hnorm as <-; reflexivity).
      clear Hnorm. set (key := String (upperChar c) (String c' r')).
      assert (Hkchars : forallChars tokenChar key = true).
      { subst key. cbn [forallChars]. now rewrite tokenChar_upper, Hc. }
      assert (Hlow : toLowerCase key = toLowerCase (String c (String c' r'))).
      { subst key. cbn [toLowerCase mapChars]. now rewrite lower_upper. }
      exists key. split; [reflexivity|]. split.
      { subst key. cbn. destruct (Ascii.eqb (upperChar c) " "); reflexivity. }
      split; [unfold isToken; now rewrite Hkchars|].
      split; [unfold aliasOf in *; now rewrite Hlow|].
      unfold normalizeKeyName, specialKeyMap_get. rewrite (trim_token _ Hkchars).
      rewrite Hlow, Hv, E1, E2, Hlen. subst key. cbn. now rewrite upper_idem.
Qed.

Lemma flagLabels_tokens platform c m s a :
  Forall (fun t => isToken t = true) (flagLabels platform c m s a).
Proof.
  destruct c, m, s, a, platform; repeat constructor.
Qed.

Lemma flagLabels_parse platform c m s a :
  fold_left (parseToken platform false true) (flagLabels platform c m s a) emptyStep
  = mkStep None c m s a.
Proof. destruct c, m, s, a, platform; vm_compute; reflexivity. Qed.

Lemma parseToken_key platform cs treatMod acc token :
  aliasOf token = None ->
  parseToken platform cs treatMod acc token
  = mkStep (Some (normalizeKeyName token cs)) (step_ctrl acc) (step_meta acc)
           (step_shift acc) (step_alt acc).
Proof.
  intros H. unfold parseToken. unfold aliasOf in H. rewrite H. now destruct acc.
Qed.

Lemma parseSingle_fold nav pattern platform :
  parseSingle nav pattern (platformOnly platform)
  = fold_left (parseToken platform false true) (tokenize "+" pattern) emptyStep.
Proof. reflexivity. Qed.

Lemma stepTokens_words platform k c m s a :
  stepTokens false platform (mkStep k c m s a)
  = if keyTruthy k
    then label ← toKeyLabel false k; Ok (flagLabels platform c m s a ++ [label])%list
    else Ok (flagLabels platform c m s a).
Proof. reflexivity. Qed.

Lemma parse_labels nav platform c m s a keyLabel :
  (forall label, keyLabel = Some label -> isToken label = true /\ aliasOf label = None) ->
  parsePattern nav (join "+" (flagLabels platform c m s a ++ option_list keyLabel))
               (platformOnly platform)
  = let k := (fun label => normalizeKeyName label false) <$> keyLabel in
    mkParsed k c m s a false [mkStep k c m s a].
Proof.
  intros Hlabel.
  assert (HF : Forall (fun t => isToken t = true)
                      (flagLabels platform c m s a ++ option_list keyLabel)).
  { apply Forall_app. split; [apply flagLabels_tokens|].
    destruct keyLabel as [label|]; [|constructor].
    repeat constructor. now apply Hlabel. }
  rewrite parsePattern_spaceless by (now apply join_plus_notSpace).
  rewrite parseSingle_fold, tokenize_join_tokens by exact HF.
  rewrite fold_left_app, flagLabels_parse.
  destruct keyLabel as [label|]; [|reflexivity].
  change (option_list (Some label)) with [label]. cbn [fold_left].
  rewrite parseToken_key by (now apply Hlabel).
  reflexivity.
Qed.



(** ** Formatting a sequence part by part *)

Lemma tokenize_no_sep sep s :
  Forall (fun t => forallChars (fun c => negb (Ascii.eqb c sep)) t = true)
         (tokenize sep s).
Proof.
  unfold tokenize. apply List.Forall_forall. intros t Ht.
  apply filter_In in Ht as [Ht _]. apply in_map_iff in Ht as (u & <- & Hu).
  apply trim_forallChars.
  pose proof (split_no_sep sep s) as HF. rewrite List.Forall_forall in HF. auto.
Qed.

Lemma mapResult_map {A B C : Type} (f : B -> result C) (g : A -> B) xs :
  mapResult f (List.map g xs) = mapResult (fun x => f (g x)) xs.
Proof. induction xs as [|x rest IH]; simpl; [reflexivity | now rewrite IH]. Qed.

Lemma mapResult_ext {A B : Type} (f g : A -> result B) xs :
  Forall (fun x => f x = g x) xs -> mapResult f xs = mapResult g xs.
Proof. induction 1 as [|x rest Hx _ IH]; simpl; [reflexivity | now rewrite Hx, IH]. Qed.

Lemma formatPattern_spaceless nav pattern options :
  forallChars notSpace pattern = true ->
  formatPattern nav pattern options
  = t ← stepTokens (fmtUseSymbols nav options) (fmtPlatform nav options)
                   (parseSingle nav pattern (platformOnly (fmtPlatform nav options)));
    Ok (join (fmtSeparator nav options) t).
Proof.
  intros H. unfold formatPattern. fold (platformOnly (fmtPlatform nav options)).
  rewrite (parsePattern_spaceless nav pattern _ H). cbv zeta.
  cbn [isSequence negb key ctrl meta shift alt].
  now destruct (parseSingle nav pattern _).
Qed.

(** X22. A sequence is formatted part by part: the result for a pattern
    with two or more space-separated parts is the results for the parts,
    each formatted on its own with the same options, joined by [" then "]
    (by a space in symbol style); it throws when one of the parts does. *)
Theorem formatPattern_sequence_parts nav pattern options :
  2 <= length (tokenize " " pattern) ->
  formatPattern nav pattern options
  = parts ← mapResult (fun p => formatPattern nav p options) (tokenize " " pattern);
    Ok (join (if fmtUseSymbols nav options then " " else " then ") parts).
Proof.
  intros Hlen.
  assert (Hparts :
    mapResult (fun p => formatPattern nav p options) (tokenize " " pattern)
    = mapResult
        (fun p => t ← stepTokens (fmtUseSymbols nav options) (fmtPlatform nav options)
                        (parseSingle nav p (platformOnly (fmtPlatform nav options)));
                  Ok (join (fmtSeparator nav options) t))
        (tokenize " " pattern)).
  { apply mapResult_ext. eapply Forall_impl; [apply (tokenize_no_sep " "%char)|].
    intros p Hp. now apply formatPattern_spaceless. }
  rewrite Hparts. unfold formatPattern. fold (platformOnly (fmtPlatform nav options)).
  destruct (parsePattern_cases nav pattern (platformOnly (fmtPlatform nav options)))
    as [[Hsimple _] | (_ & _ & ->)].
  - exfalso. unfold parsePattern in Hsimple.
    destruct (Nat.leb_spec (length (tokenize " " pattern)) 1); [lia | discriminate].
  - cbn [isSequence negb sequence]. now rewrite mapResult_map.
Qed.

Lemma formatPattern_sequence_parts_witness :
  formatPattern None "Control+k  shift+esc" None
  = parts ← mapResult (fun p => formatPattern None p None) ["Control+k"; "shift+esc"];
    Ok (join " then " parts).
Proof.
  apply (formatPattern_sequence_parts None "Control+k  shift+esc" None).
  vm_compute. lia.
Defined.

Example format_plus_words :
  formatPattern None "shift+Control+esc" (plusWords (Some mac)) = Ok "Ctrl+Shift+Escape"
  /\ formatPattern None "mod+space" (plusWords (Some mac)) = Ok "Command+Space"
  /\ formatPattern None "Control+k" None = Ok "Ctrl + K"
  /\ parsePattern None "Ctrl + K" None
     = mkParsed None false false false false true
         [mkStep None true false false false; emptyStep;
          mkStep (Some (KStr "k")) false false false false].
Proof. repeat split; vm_compute; reflexivity. Qed.
